(** * dora: the JSON path-query executor, the result projector and the
    merge helper, embedded from the Go sources.

    Layout of the development:
    - [Go]: what the embedding needs of the Go runtime (run-time panics,
      [error] values, indexing and slicing with their bounds checks,
      [interface{}] values, [fmt] verbs);
    - [ast]: package ast as package dora compiles against it (values with
      [String] and [GoType]);
    - [danger]: the byte/string conversion used by [prepareQuery];
    - [dora]: the client, [validateQueryRoot], [prepareQuery],
      [executeQuery], [setFinalValue], [setResultFromValue], [get],
      [GetObject];
    - [ast2], [merge]: [stripWhiteSpace] over the structural items of the
      structure-preserving ast. *)

From Stdlib Require Import ZArith String List Ascii Floats Strings.Byte.
From Stdlib Require Import DecimalString.
From stdpp Require Import base gmap strings list.

Set Warnings "-register-all,-clear-no-such-hyp".

Local Open Scope string_scope.
Local Open Scope Z_scope.

(* ===================================================================== *)
(** ** The Go runtime, as far as the sources rely on it *)
(* ===================================================================== *)
Module Go.

(** Run-time panics.  They unwind the goroutine; none of the sources
    recovers, so a panic is the end of the computation. *)
Inductive panic : Type :=
| IndexOutOfRange (index len : Z)
| SliceBoundsOutOfRange (lo hi cap : Z)
| NilDereference
| PanicValue (msg : string).

(** A Go computation either returns normally or panics. *)
Inductive exec (A : Type) : Type :=
| Return (a : A)
| Panic (p : panic).
Arguments Return {A} a.
Arguments Panic {A} p.

Definition bind {A B} (m : exec A) (k : A -> exec B) : exec B :=
  match m with
  | Return a => k a
  | Panic p => Panic p
  end.

Definition returns {A} (m : exec A) : Prop := exists a, m = Return a.

(** [errors.New] and [fmt.Errorf] both produce a value whose only
    observable content is its message. *)
Inductive error : Type := errorString (msg : string).

Definition errors_New (msg : string) : error := errorString msg.

Definition Error (e : error) : string :=
  match e with errorString m => m end.

(** [l[i]]: panics unless [0 <= i < len(l)]. *)
Definition index_at {A} (l : list A) (i : Z) : exec A :=
  if (i <? 0) || (Z.of_nat (length l) <=? i)
  then Panic (IndexOutOfRange i (Z.of_nat (length l)))
  else match l !! Z.to_nat i with
       | Some x => Return x
       | None => Panic (IndexOutOfRange i (Z.of_nat (length l)))
       end.

(** [l[lo:hi]]: panics unless [0 <= lo <= hi <= cap(l)]; the buffers
    the sources slice are taken with capacity equal to length. *)
Definition slice {A} (l : list A) (lo hi : Z) : exec (list A) :=
  if (0 <=? lo) && (lo <=? hi) && (hi <=? Z.of_nat (length l))
  then Return (firstn (Z.to_nat (hi - lo)) (skipn (Z.to_nat lo) l))
  else Panic (SliceBoundsOutOfRange lo hi (Z.of_nat (length l))).

(** [l[i] = f(l[i])], an assignment to a field of the element at
    index [i]: panics unless [0 <= i < len(l)]. *)
Definition update_at {A} (l : list A) (i : Z) (f : A -> A) : exec (list A) :=
  bind (index_at l i) (fun x => Return (<[ Z.to_nat i := f x ]> l)).

(** [*p] for a pointer that may be nil. *)
Definition deref {A} (p : option A) : exec A :=
  match p with
  | Some a => Return a
  | None => Panic NilDereference
  end.

(** A Go string is a sequence of bytes; [s[i]] reads one of them. *)
Definition str_index (s : string) (i : Z) : exec ascii :=
  index_at (list_ascii_of_string s) i.

Definition float64 : Type := PrimFloat.float.

(** The dynamic values an [interface{}] holds in these sources. *)
Inductive any : Type :=
| AString (s : string)
| AFloat64 (f : float64)
| AInt (n : Z)
| ABool (b : bool)
| ANil
| ASlice (items : list any)
| AMap (entries : gmap string any).

(** The one-byte string holding a double quote. *)
Definition dquote : string := String (ascii_of_nat 34) EmptyString.

(** [strconv.Itoa]. *)
Definition strconv_Itoa (n : Z) : string :=
  NilZero.string_of_int (Z.to_int n).

(** [fmt.Sprintf("%v", b)] at a bool. *)
Definition sprintf_v_bool (b : bool) : string :=
  if b then "true" else "false".

(** The two [fmt] verbs whose output is fixed by package fmt and not by
    this repository: ["%f"] at a float64 and ["%v"] at a value of any
    other dynamic type. *)
Class Fmt : Type := {
  Sprintf_f : float64 -> string;
  Sprintf_v : any -> string
}.

(** What package strconv contributes and this repository does not
    define: [strconv.Quote], which the syntax error of [ParseBool]
    embeds, and [strconv.ParseFloat] at bit size 64. *)
Class Strconv : Type := {
  strconv_Quote : string -> string;
  strconv_ParseFloat : string -> float64 * option error
}.

(** [strconv.ParseBool]: the six spellings of true, the six of false,
    and a syntax error for every other string. *)
Definition strconv_ParseBool `{Strconv} (str : string) : bool * option error :=
  if String.eqb str "1" || String.eqb str "t" || String.eqb str "T" ||
     String.eqb str "true" || String.eqb str "TRUE" || String.eqb str "True"
  then (true, None)
  else if String.eqb str "0" || String.eqb str "f" || String.eqb str "F" ||
          String.eqb str "false" || String.eqb str "FALSE" ||
          String.eqb str "False"
  then (false, None)
  else (false,
        Some (errorString ("strconv.ParseBool: parsing " +:+
                           strconv_Quote str +:+ ": invalid syntax"))).

End Go.

Export Go.

Declare Scope go_scope.
Delimit Scope go_scope with go.
Notation "x <- m ;; k" := (Go.bind m (fun x => k))
(at level 100, m at next level, right associativity) : go_scope.
Local Open Scope go_scope.

(* ===================================================================== *)
(** ** package ast (the version package dora is written against) *)
(* ===================================================================== *)
Module ast.

Inductive RootNodeType : Type := ObjectRoot | ArrayRoot.

Inductive Type_ : Type :=
| ObjectType | ArrayType | LiteralType | PropertyType | IdentifierType.

Definition RootNodeType_eqb (a b : RootNodeType) : bool :=
  match a, b with
  | ObjectRoot, ObjectRoot | ArrayRoot, ArrayRoot => true
  | _, _ => false
  end.

Definition Type_eqb (a b : Type_) : bool :=
  match a, b with
  | ObjectType, ObjectType | ArrayType, ArrayType
  | LiteralType, LiteralType | PropertyType, PropertyType
  | IdentifierType, IdentifierType => true
  | _, _ => false
  end.

Record Literal : Type := mkLiteral {
  Literal_Type : Type_;
  Literal_Value : any
}.

Record Identifier : Type := mkIdentifier {
  Identifier_Type : Type_;
  Identifier_Value : string
}.

(** [Value] is the interface; its constructors are the dynamic types
    that implement it.  [sourceBuf] is a pointer to the source bytes:
    [None] is the nil pointer of a zero value, [Some buf] a pointer to
    the buffer [buf], which no code under study writes to. *)
Inductive Value : Type :=
| VObject (o : Object)
| VArray (a : Array)
| VLiteral (l : Literal)
| VProperty (p : Property)
| VIdentifier (i : Identifier)
with Object : Type :=
| mkObject (Type__ : Type_) (Children : list Property)
           (Start End_ : Z) (sourceBuf : option (list byte))
with Array : Type :=
| mkArray (Type__ : Type_) (Children : list Value)
          (Start End_ : Z) (sourceBuf : option (list byte))
with Property : Type :=
| mkProperty (Type__ : Type_) (Key : Identifier) (Value_ : Value).

Definition Object_Children (o : Object) : list Property :=
  match o with mkObject _ ch _ _ _ => ch end.
Definition Object_Start (o : Object) : Z :=
  match o with mkObject _ _ s _ _ => s end.
Definition Object_End (o : Object) : Z :=
  match o with mkObject _ _ _ e _ => e end.
Definition Object_sourceBuf (o : Object) : option (list byte) :=
  match o with mkObject _ _ _ _ b => b end.

Definition Array_Children (a : Array) : list Value :=
  match a with mkArray _ ch _ _ _ => ch end.
Definition Array_Start (a : Array) : Z :=
  match a with mkArray _ _ s _ _ => s end.
Definition Array_End (a : Array) : Z :=
  match a with mkArray _ _ _ e _ => e end.
Definition Array_sourceBuf (a : Array) : option (list byte) :=
  match a with mkArray _ _ _ _ b => b end.

Definition Property_Key (p : Property) : Identifier :=
  match p with mkProperty _ k _ => k end.
Definition Property_Value (p : Property) : Value :=
  match p with mkProperty _ _ v => v end.

(** The zero values of the two container structs. *)
Definition zeroObject : Object := mkObject ObjectType [] 0 0 None.
Definition zeroArray : Array := mkArray ObjectType [] 0 0 None.

Definition NewObject (sourceBuf : option (list byte)) : Object :=
  mkObject ObjectType [] 0 0 sourceBuf.
Definition NewArray (sourceBuf : option (list byte)) : Array :=
  mkArray ArrayType [] 0 0 sourceBuf.

Record RootNode : Type := mkRootNode {
  RootValue : option Value;
  Type__ : RootNodeType
}.

(** [String] dereferences [sourceBuf], slices it from [Start] to [End]
    and converts the bytes to a string. *)
Definition Object_String (o : Object) : exec string :=
  buf <- deref (Object_sourceBuf o) ;;
  bs <- slice buf (Object_Start o) (Object_End o) ;;
  Return (string_of_list_byte bs).

Definition Array_String (a : Array) : exec string :=
  buf <- deref (Array_sourceBuf a) ;;
  bs <- slice buf (Array_Start a) (Array_End a) ;;
  Return (string_of_list_byte bs).

Definition Literal_String `{Fmt} (l : Literal) : string :=
  match Literal_Value l with
  | AString lit => lit
  | AFloat64 lit => Sprintf_f lit
  | AInt lit => strconv_Itoa lit
  | ABool lit => sprintf_v_bool lit
  | ANil => "null"
  | other => Sprintf_v other
  end.

Definition Identifier_String (i : Identifier) : string :=
  Identifier_Value i.

(** [GoType] of each implementation of [Value].  An object fills a
    fresh map by assignment, property after property; an array fills
    a slice of the same length, child after child. *)
Fixpoint Value_GoType (v : Value) : any :=
  match v with
  | VObject o => Object_GoType o
  | VArray a => Array_GoType a
  | VLiteral l => Literal_Value l
  | VProperty _ => ANil
  | VIdentifier _ => ANil
  end
with Object_GoType (o : Object) : any :=
  match o with
  | mkObject _ children _ _ _ =>
      AMap (fold_left
              (fun (result : gmap string any) (property : Property) =>
                 match property with
                 | mkProperty _ k v =>
                     <[ Identifier_String k := Value_GoType v ]> result
                 end)
              children ∅)
  end
with Array_GoType (a : Array) : any :=
  match a with
  | mkArray _ children _ _ _ => ASlice (List.map Value_GoType children)
  end.

(** The last property, in declaration order, whose [Key.Value] is [k]:
    the one whose assignment to the map of [Object.GoType] is not
    overwritten. *)
Fixpoint lastWithKey (k : string) (children : list Property)
  : option Property :=
  match children with
  | [] => None
  | p :: rest =>
      match lastWithKey k rest with
      | Some q => Some q
      | None =>
          if String.eqb (Identifier_Value (Property_Key p)) k
          then Some p else None
      end
  end.

End ast.

(* ===================================================================== *)
(** ** package danger *)
(* ===================================================================== *)
Module danger.

Definition max : Z := 0x7fff0000.

(** [StringToBytes] aliases the bytes of the string: the result has the
    bytes of [s], and the call panics on a string longer than [max]. *)
Definition StringToBytes (s : string) : exec (list byte) :=
  if Z.of_nat (String.length s) =? 0 then Return []
  else if Z.of_nat (String.length s) >? max
       then Panic (PanicValue "string too large")
       else Return (list_byte_of_string s).

(** [BytesToString] aliases the bytes of the slice: the result has the
    bytes of [bytes]; the empty slice gives the empty string. *)
Definition BytesToString (bytes : list byte) : string :=
  if Z.of_nat (length bytes) =? 0 then EmptyString
  else string_of_list_byte bytes.

End danger.

(* ===================================================================== *)
(** ** package dora: the query side of the client *)
(* ===================================================================== *)
Module dora.
Import ast.

Inductive accessKind : Type := ObjectAccess | ArrayAccess.

(** Modelled from the spec: the declaration of [queryToken] is not among
    the sources.  A query token is a tag (object-key access or
    array-index access) with its payload, a key string or an index
    integer; the executor reads the three fields [accessType], [key]
    and [index] of one struct, the index being a Go [int]. *)
Record queryToken : Type := mkQueryToken {
  accessType : accessKind;
  key : string;
  index : Z
}.

Record Client : Type := mkClient {
  input : list byte;
  tree : RootNode;
  query : list byte;
  parsedQuery : list queryToken;
  result : string;
  resultValue : option Value
}.

Definition set_query (q : list byte) (c : Client) : Client :=
  mkClient (input c) (tree c) q (parsedQuery c) (result c) (resultValue c).
Definition set_parsedQuery (t : list queryToken) (c : Client) : Client :=
  mkClient (input c) (tree c) (query c) t (result c) (resultValue c).
Definition set_result (r : string) (c : Client) : Client :=
  mkClient (input c) (tree c) (query c) (parsedQuery c) r (resultValue c).
Definition set_resultValue (v : Value) (c : Client) : Client :=
  mkClient (input c) (tree c) (query c) (parsedQuery c) (result c) (Some v).

(** What [executeQuery] never writes: the input, the tree and the
    tokens of the query. *)
Definition sameQuery (c c' : Client) : Prop :=
  input c' = input c /\ tree c' = tree c /\
  parsedQuery c' = parsedQuery c.

Definition ErrNoDollarSignRoot : error :=
  errors_New
    "Incorrect syntax, query must start with `$` representing the root object or array".
Definition ErrWrongObjectRootSelector : error :=
  errors_New
    ("Incorrect syntax. Your root JSON type is an object. Therefore, path queries must" +:+
     "begin by selecting a `key` from your root object. Ex: `$.keyOnRootObject` or `$[" +:+
     dquote +:+ "keyOnRootObject" +:+ dquote +:+ "]`").
Definition ErrWrongArrayRootSelector : error :=
  errors_New
    ("Incorrect syntax. Your root JSON type is an array. Therefore, path queries must" +:+
     "begin by selecting an item by index on the root array. Ex: `$[0]` or `$[1]`").

(** The errors [executeQuery] builds in place. *)
Definition errAskedObjectFoundArray : error :=
  errors_New "incorrect syntax, your query asked for an object but found array".
Definition errAskedArrayFoundObject : error :=
  errors_New "incorrect syntax, your query asked for an array but found object".
Definition errKeyNotFound (k : string) : error :=
  errorString ("Sorry, could not find a key with that value. Key: " +:+ k).
Definition errQueryNotRight : error :=
  errors_New "Sorry, it looks like your query isn't quite right".

(** validateQueryRoot handles some very simple validation around the
    root of the query. *)
Definition validateQueryRoot (query : string) (rootNodeType : RootNodeType)
  : exec (option error) :=
  q0 <- str_index query 0 ;;
  if negb (Ascii.eqb q0 "$"%char) then Return (Some ErrNoDollarSignRoot)
  else
    q1 <- str_index query 1 ;;
    let validObjQueryRoot := Ascii.eqb q1 "."%char in
    if RootNodeType_eqb rootNodeType ObjectRoot && negb validObjQueryRoot
    then Return (Some ErrWrongObjectRootSelector)
    else
      let validArrayQueryRoot := Ascii.eqb q1 "["%char in
      if RootNodeType_eqb rootNodeType ArrayRoot && negb validArrayQueryRoot
      then Return (Some ErrWrongArrayRootSelector)
      else Return None.

Section Execute.
Context `{Fmt}.

(** setResultFromValue switches on the dynamic type of the value and
    assigns the result to the client. *)
Definition setResultFromValue (value : Value) (c : Client) : exec Client :=
  let c := set_resultValue value c in
  match value with
  | VLiteral val => Return (set_result (Literal_String val) c)
  | VObject val =>
      bs <- slice (input c) (Object_Start val) (Object_End val) ;;
      Return (set_result (string_of_list_byte bs) c)
  | VArray val =>
      s <- Array_String val ;;
      Return (set_result s c)
  | _ => Return c
  end.

(** The [range] loop of [setFinalValue]: the first property whose key
    is [r] sets the result and ends the loop. *)
Fixpoint setFinalValue_range (r : string) (children : list Property)
  (c : Client) : exec Client :=
  match children with
  | [] => Return c
  | v :: rest =>
      if String.eqb r (Identifier_Value (Property_Key v))
      then setResultFromValue (Property_Value v) c
      else setFinalValue_range r rest c
  end.

(** setFinalValue is called on the final query token. *)
Definition setFinalValue (currentType : Type_) (index_ : Z)
  (obj : Object) (arr : Array) (c : Client) : exec Client :=
  if Type_eqb currentType ObjectType then
    qt <- index_at (parsedQuery c) index_ ;;
    let r := key qt in
    setFinalValue_range r (Object_Children obj) c
  else
    qt <- index_at (parsedQuery c) index_ ;;
    let ind := index qt in
    v <- index_at (Array_Children arr) ind ;;
    setResultFromValue v c.

(** The local variables [executeQuery] carries from one iteration to
    the next. *)
Record locals : Type := mkLocals {
  obj : Object;
  arr : Array;
  currentType : Type_
}.

(** The inner [range obj.Children] loop of the object-access branch,
    with its [found] flag.  A matching property whose value is an
    object or an array moves the cursor and breaks; any other
    matching property only sets [found] and the loop goes on. *)
Fixpoint rangeChildren (k : string) (children : list Property)
  (found : bool) (l : locals) : bool * locals :=
  match children with
  | [] => (found, l)
  | v :: rest =>
      if String.eqb (Identifier_Value (Property_Key v)) k then
        match Property_Value v with
        | VObject o => (true, mkLocals o (arr l) ObjectType)
        | VArray a => (true, mkLocals (obj l) a ArrayType)
        | _ => rangeChildren k rest true l
        end
      else rangeChildren k rest found l
  end.

(** What one iteration of the [for] loop does: it falls through to the
    next iteration, or returns an error from [executeQuery]. *)
Inductive step : Type :=
| Next (l : locals) (c : Client)
| Stop (err : error) (c : Client).

Definition iteration (parsedQueryLen i : Z) (l : locals) (c : Client)
  : exec step :=
  c <- (if i =? parsedQueryLen - 1
        then setFinalValue (currentType l) i (obj l) (arr l) c
        else Return c) ;;
  qt <- index_at (parsedQuery c) i ;;
  match accessType qt with
  | ObjectAccess =>
      if negb (Type_eqb (currentType l) ObjectType)
      then Return (Stop errAskedObjectFoundArray c)
      else
        let '(found, l') :=
          rangeChildren (key qt) (Object_Children (obj l)) false l in
        if negb found
        then Return (Stop (errKeyNotFound (key qt)) c)
        else Return (Next l' c)
  | ArrayAccess =>
      if negb (Type_eqb (currentType l) ArrayType)
      then Return (Stop errAskedArrayFoundObject c)
      else
        val <- index_at (Array_Children (arr l)) (index qt) ;;
        match val with
        | VObject v => Return (Next (mkLocals v (arr l) ObjectType) c)
        | VArray v => Return (Next (mkLocals (obj l) v ArrayType) c)
        | VLiteral v =>
            if i =? parsedQueryLen - 1
            then c <- setResultFromValue (VLiteral v) c ;;
                 Return (Next l c)
            else Return (Stop errQueryNotRight c)
        | _ => Return (Next l c)
        end
  end.

(** [for i := 0; i < parsedQueryLen; i++]: [n] counts the iterations
    still to run, [i] is the loop variable. *)
Fixpoint forLoop (n : nat) (parsedQueryLen i : Z) (l : locals)
  (c : Client) : exec (option error * Client) :=
  match n with
  | O => Return (None, c)
  | S n' =>
      s <- iteration parsedQueryLen i l c ;;
      match s with
      | Next l' c' => forLoop n' parsedQueryLen (i + 1) l' c'
      | Stop err c' => Return (Some err, c')
      end
  end.

(** The locals before the first iteration. *)
Definition initialLocals (rootVal : Value) : locals :=
  let obj := match rootVal with VObject o => o | _ => zeroObject end in
  let '(arr, ok) :=
    match rootVal with VArray a => (a, true) | _ => (zeroArray, false) end in
  let currentType := if (ok : bool) then ArrayType else ObjectType in
  mkLocals obj arr currentType.

(** executeQuery iterates over the query tokens and traverses the
    tree. *)
Definition executeQuery (c : Client) : exec (option error * Client) :=
  rootVal <- deref (RootValue (tree c)) ;;
  let parsedQueryLen := Z.of_nat (length (parsedQuery c)) in
  forLoop (length (parsedQuery c)) parsedQueryLen 0
          (initialLocals rootVal) c.

(** The first [k] iterations of that loop, started at iteration [i]
    with locals [l]: the locals and the client the next iteration
    starts from, or the error an iteration returned. *)
Fixpoint runTo (k : nat) (parsedQueryLen i : Z) (l : locals)
  (c : Client) : exec step :=
  match k with
  | O => Return (Next l c)
  | S k' =>
      s <- iteration parsedQueryLen i l c ;;
      match s with
      | Next l' c' => runTo k' parsedQueryLen (i + 1) l' c'
      | Stop err c' => Return (Stop err c')
      end
  end.

(** [executeQuery c0] starts iteration [k] (counted from 0) with the
    cursor [l] and the client [c]. *)
Definition atIteration (c0 : Client) (k : nat) (l : locals)
  (c : Client) : Prop :=
  exists rootVal,
    RootValue (tree c0) = Some rootVal /\
    runTo k (Z.of_nat (length (parsedQuery c0))) 0
          (initialLocals rootVal) c0 = Return (Next l c).

(** The first property, in declaration order, whose key is [k]. *)
Fixpoint firstWithKey (k : string) (children : list Property)
  : option Property :=
  match children with
  | [] => None
  | p :: rest =>
      if String.eqb (Identifier_Value (Property_Key p)) k
      then Some p
      else firstWithKey k rest
  end.

(** The value a token resolves to at a cursor, after the words of the
    specification: an object-key access resolves to the value of the
    first property of the object whose key is the requested one, an
    array-index access to the item at the requested index. *)
Definition resolvesTo (qt : queryToken) (l : locals) : option Value :=
  match accessType qt with
  | ObjectAccess =>
      Property_Value <$> firstWithKey (key qt) (Object_Children (obj l))
  | ArrayAccess =>
      if index qt <? 0 then None
      else Array_Children (arr l) !! Z.to_nat (index qt)
  end.

(** The string form of a terminal value, after the words of the
    specification: for an object or an array the bytes of the source
    buffer from [Start] up to [End] (the client's input for an object,
    the buffer the node points to for an array), for a literal the
    rendering of the decoded value: a string is its own rendering, a
    boolean is [true] or [false], nil is [null], an int is its decimal
    numeral, a float64 is what the verb [%f] of package fmt prints and
    a value of any other dynamic type what the verb [%v] prints. *)
Definition stringForm (input : list byte) (v : Value) (r : string) : Prop :=
  match v with
  | VObject o =>
      exists bs, slice input (Object_Start o) (Object_End o) = Return bs /\
                 r = string_of_list_byte bs
  | VArray a =>
      exists buf bs, Array_sourceBuf a = Some buf /\
                     slice buf (Array_Start a) (Array_End a) = Return bs /\
                     r = string_of_list_byte bs
  | VLiteral l =>
      match Literal_Value l with
      | AString s => r = s
      | ABool b => r = if b then "true" else "false"
      | ANil => r = "null"
      | AInt n => r = NilZero.string_of_int (Z.to_int n)
      | AFloat64 f => r = Sprintf_f f
      | other => r = Sprintf_v other
      end
  | _ => True
  end.

(** The kind of cursor a token asks for. *)
Definition cursorFor (qt : queryToken) : Type_ :=
  match accessType qt with
  | ObjectAccess => ObjectType
  | ArrayAccess => ArrayType
  end.

(** The cursor a non-final token moves to, after the words of the
    specification: the object or the array the token resolves to.  As in
    [executeQuery], the variable of the other kind keeps its value. *)
Definition narrowsTo (qt : queryToken) (l : locals) : option locals :=
  match resolvesTo qt l with
  | Some (VObject o) => Some (mkLocals o (arr l) ObjectType)
  | Some (VArray a) => Some (mkLocals (obj l) a ArrayType)
  | _ => None
  end.

(** Following a token sequence with first-match lookup, after the words
    of the specification: every token must be of the kind of the cursor,
    every token but the last narrows the cursor to a container, and the
    last one gives the terminal value. *)
Fixpoint firstMatchWalk (l : locals) (tokens : list queryToken)
  : option Value :=
  match tokens with
  | [] => None
  | qt :: rest =>
      if Type_eqb (currentType l) (cursorFor qt) then
        match rest with
        | [] => resolvesTo qt l
        | _ :: _ =>
            match narrowsTo qt l with
            | Some l' => firstMatchWalk l' rest
            | None => None
            end
        end
      else None
  end.

(** The client an iteration hands on, whether it falls through or
    returns an error. *)
Definition clientOf (s : step) : Client :=
  match s with Next _ c => c | Stop _ c => c end.

(** What a run has written into the client: the value it has stored in
    [resultValue], if any, and the string it has stored in [result], if
    any. *)
Definition writes : Type := option Value * option string.

Definition applyWrites (w : writes) (c : Client) : Client :=
  mkClient (input c) (tree c) (query c) (parsedQuery c)
    (match snd w with Some r => r | None => result c end)
    (match fst w with Some v => Some v | None => resultValue c end).

(** [w1] followed by [w2]: the later write of a field stands. *)
Definition thenWrites (w1 w2 : writes) : writes :=
  (match fst w2 with Some v => Some v | None => fst w1 end,
   match snd w2 with Some r => Some r | None => snd w1 end).

(** The step [s] with another client. *)
Definition withClient (s : step) (c : Client) : step :=
  match s with
  | Next l _ => Next l c
  | Stop err _ => Stop err c
  end.

(** The errors [executeQuery] can return for a given token sequence. *)
Definition executeError (tokens : list queryToken) (err : error) : Prop :=
  err = errAskedObjectFoundArray \/
  err = errAskedArrayFoundObject \/
  err = errQueryNotRight \/
  exists qt, qt ∈ tokens /\ accessType qt = ObjectAccess /\
             err = errKeyNotFound (key qt).

(** [scanQueryTokens] is not among the sources; the functions below
    are given it. *)
Variable scanQueryTokens :
  list byte -> exec (list queryToken * option error).

Definition setQuery (q : list byte) (c : Client) : Client :=
  set_query q c.

Definition parseQuery (c : Client) : exec (option error * Client) :=
  r <- scanQueryTokens (query c) ;;
  match r with
  | (_, Some err) => Return (Some err, c)
  | (tokens, None) => Return (None, set_parsedQuery tokens c)
  end.

Definition prepareQuery (query_ : string) (rootNodeType : RootNodeType)
  (c : Client) : exec (option error * Client) :=
  v <- validateQueryRoot query_ (Type__ (tree c)) ;;
  match v with
  | Some err => Return (Some err, c)
  | None =>
      bs <- danger.StringToBytes query_ ;;
      let c := setQuery bs c in
      r <- parseQuery c ;;
      match r with
      | (Some err, c) => Return (Some err, c)
      | (None, c) => Return (None, c)
      end
  end.

Definition prepAndExecQuery (query_ : string) (c : Client)
  : exec (option error * Client) :=
  r <- prepareQuery query_ (Type__ (tree c)) c ;;
  match r with
  | (Some err, c) => Return (Some err, c)
  | (None, c) =>
      r <- executeQuery c ;;
      match r with
      | (Some err, c) => Return (Some err, c)
      | (None, c) => Return (None, c)
      end
  end.

Definition get (query_ : string) (c : Client)
  : exec (string * option error * Client) :=
  r <- prepAndExecQuery query_ c ;;
  match r with
  | (Some err, c) => Return ("", Some err, c)
  | (None, c) => Return (result c, None, c)
  end.

(** [GetObject]: the method call on a nil [resultValue] panics. *)
Definition GetObject (query_ : string) (c : Client)
  : exec (option any * option error * Client) :=
  r <- prepAndExecQuery query_ c ;;
  match r with
  | (Some err, c) => Return (None, Some err, c)
  | (None, c) =>
      v <- deref (resultValue c) ;;
      Return (Some (Value_GoType v), None, c)
  end.

(** GetString wraps a call to [get] and returns the result as a
    string. *)
Definition GetString (query_ : string) (c : Client)
  : exec (string * option error * Client) :=
  r <- get query_ c ;;
  match r with
  | (_, Some err, c) => Return ("", Some err, c)
  | (result_, None, c) => Return (result_, None, c)
  end.

Context `{Strconv}.

(** GetBool wraps a call to [get] and returns the result as a bool. *)
Definition GetBool (query_ : string) (c : Client)
  : exec (bool * option error * Client) :=
  r <- get query_ c ;;
  match r with
  | (_, Some err, c) => Return (false, Some err, c)
  | (res, None, c) =>
      match strconv_ParseBool res with
      | (_, Some err) => Return (false, Some err, c)
      | (s, None) => Return (s, None, c)
      end
  end.

(** GetFloat64 wraps a call to [get] and returns the result as a
    float64. *)
Definition GetFloat64 (query_ : string) (c : Client)
  : exec (float64 * option error * Client) :=
  r <- get query_ c ;;
  match r with
  | (_, Some err, c) => Return (0%float, Some err, c)
  | (res, None, c) =>
      match strconv_ParseFloat res with
      | (_, Some err) => Return (0%float, Some err, c)
      | (f, None) => Return (f, None, c)
      end
  end.

End Execute.

Definition errSelectorSytax (operator : string) : error :=
  errorString
    ("Error parsing query, expected either a `.` for selections on an object or a `[` for selections on an array. Got: "
     +:+ operator).

End dora.

(* ===================================================================== *)
(** ** package ast, structure-preserving version, and package merge *)
(* ===================================================================== *)
Module ast2.

(** The structural items of the structure-preserving ast that package
    merge compiles against. *)
Inductive StructuralItemType : Type :=
| WhitespaceStructuralItemType
| LineCommentStructuralItemType
| BlockCommentStructuralItemType.

Definition StructuralItemType_eqb (a b : StructuralItemType) : bool :=
  match a, b with
  | WhitespaceStructuralItemType, WhitespaceStructuralItemType
  | LineCommentStructuralItemType, LineCommentStructuralItemType
  | BlockCommentStructuralItemType, BlockCommentStructuralItemType => true
  | _, _ => false
  end.

Record StructuralItem : Type := mkStructuralItem {
  ItemType : StructuralItemType;
  Value : string
}.

End ast2.

(** The nodes of the structure-preserving ast (the version package
    merge compiles against). *)
Module ast2nodes.
Import ast2.

Inductive RootNodeType : Type := ObjectRoot | ArrayRoot.

Inductive Type_ : Type :=
| ObjectType | ArrayType | ArrayItemType | LiteralType | PropertyType
| IdentifierType.

Inductive LiteralValueType : Type :=
| StringLiteralValueType | NumberLiteralValueType | NullLiteralValueType
| BooleanLiteralValueType.

Record Literal : Type := mkLiteral {
  Literal_Type : Type_;
  Literal_ValueType : LiteralValueType;
  Literal_Value : any;
  Literal_Delimiter : string;
  Literal_OriginalRendering : string
}.

Record Identifier : Type := mkIdentifier {
  Identifier_Type : Type_;
  Identifier_PrefixStructure : list StructuralItem;
  Identifier_Value : string;
  Identifier_SuffixStructure : list StructuralItem;
  Identifier_Delimiter : string
}.

(** [ValueContent] is the interface; its constructors are the dynamic
    types that implement it, and [CNil] is the nil interface value. *)
Inductive ValueContent : Type :=
| CObject (o : Object)
| CArray (a : Array)
| CArrayItem (ai : ArrayItem)
| CLiteral (l : Literal)
| CValue (v : Value)
| CNil
with Value : Type :=
| mkValue (PrefixStructure : list StructuralItem) (Content : ValueContent)
          (SuffixStructure : list StructuralItem)
with Object : Type :=
| mkObject (Type__ : Type_) (Children : list Property) (Start End_ : Z)
           (SuffixStructure : list StructuralItem)
           (sourceBuf : option (list byte))
with Array : Type :=
| mkArray (Type__ : Type_) (PrefixStructure : list StructuralItem)
          (Children : list ArrayItem)
          (SuffixStructure : list StructuralItem) (Start End_ : Z)
          (sourceBuf : option (list byte))
with ArrayItem : Type :=
| mkArrayItem (Type__ : Type_) (PrefixStructure : list StructuralItem)
              (Value_ : ValueContent)
              (PostValueStructure : list StructuralItem)
              (HasCommaSeparator : bool)
with Property : Type :=
| mkProperty (Type__ : Type_) (Key : Identifier) (Value_ : Value)
             (HasCommaSeparator : bool).

Definition Value_Content (v : Value) : ValueContent :=
  match v with mkValue _ c _ => c end.
Definition Value_SuffixStructure (v : Value) : list StructuralItem :=
  match v with mkValue _ _ s => s end.
Definition Value_set_Content (c : ValueContent) (v : Value) : Value :=
  match v with mkValue p _ s => mkValue p c s end.
Definition Value_set_SuffixStructure (s : list StructuralItem) (v : Value)
  : Value :=
  match v with mkValue p c _ => mkValue p c s end.

Definition Object_Children (o : Object) : list Property :=
  match o with mkObject _ ch _ _ _ _ => ch end.
Definition Object_SuffixStructure (o : Object) : list StructuralItem :=
  match o with mkObject _ _ _ _ s _ => s end.
Definition Object_set_Children (ch : list Property) (o : Object) : Object :=
  match o with mkObject t _ s e suf b => mkObject t ch s e suf b end.
Definition Object_set_SuffixStructure (suf : list StructuralItem)
  (o : Object) : Object :=
  match o with mkObject t ch s e _ b => mkObject t ch s e suf b end.

Definition Property_Key (p : Property) : Identifier :=
  match p with mkProperty _ k _ _ => k end.
Definition Property_Value (p : Property) : Value :=
  match p with mkProperty _ _ v _ => v end.
Definition Property_HasCommaSeparator (p : Property) : bool :=
  match p with mkProperty _ _ _ c => c end.
Definition Property_set_HasCommaSeparator (c : bool) (p : Property)
  : Property :=
  match p with mkProperty t k v _ => mkProperty t k v c end.
Definition Property_set_Value (v : Value) (p : Property) : Property :=
  match p with mkProperty t k _ c => mkProperty t k v c end.

Record RootNode : Type := mkRootNode {
  RootValue : option Value;
  Type__ : RootNodeType
}.

(** What the verb [%T] prints for a [ValueContent]. *)
Definition typeName (c : ValueContent) : string :=
  match c with
  | CObject _ => "ast.Object"
  | CArray _ => "ast.Array"
  | CArrayItem _ => "ast.ArrayItem"
  | CLiteral _ => "ast.Literal"
  | CValue _ => "ast.Value"
  | CNil => "<nil>"
  end.

End ast2nodes.

Module merge.
Import ast2.

(** The [for] statement of [stripWhiteSpace].  It declares its own
    [lastNonWhitespaceIndex], initialised to [len(structuralItems) - 1];
    here [k] is that variable plus one, so that the condition
    [lastNonWhitespaceIndex >= 0] reads [k = S _] and the post statement
    takes [S k'] to [k'].  The value returned is the loop's variable
    when the loop ends. *)
Fixpoint stripWhiteSpace_for (structuralItems : list StructuralItem)
  (k : nat) : exec Z :=
  match k with
  | O => Return (-1)
  | S k' =>
      item <- index_at structuralItems (Z.of_nat k') ;;
      if negb (StructuralItemType_eqb (ItemType item)
                 WhitespaceStructuralItemType)
      then Return (Z.of_nat k')
      else stripWhiteSpace_for structuralItems k'
  end.

(** [var lastNonWhitespaceIndex int] is the zero value; the loop works
    on its own variable of the same name, which goes out of scope when
    the loop ends, and the slice expression reads the outer one. *)
Definition stripWhiteSpace (structuralItems : list StructuralItem)
  : exec (list StructuralItem) :=
  let lastNonWhitespaceIndex := 0 in
  _shadowing <- stripWhiteSpace_for structuralItems
                  (length structuralItems) ;;
  slice structuralItems 0 lastNonWhitespaceIndex.

Import ast2nodes.

(** [getChildByKey]: the first child with the key, or nil. *)
Fixpoint getChildByKey_range (children : list Property) (key : string)
  : option Property :=
  match children with
  | [] => None
  | child :: rest =>
      if String.eqb (Identifier_Value (Property_Key child)) key
      then Some child
      else getChildByKey_range rest key
  end.

Definition getChildByKey (object : Object) (key : string) : option Property :=
  getChildByKey_range (Object_Children object) key.

(** The body of [if baseChild == nil]: the last child of the base gets
    its comma, the suffix structure of the base is replaced on the
    conditions the source states, and the merge child is appended.  The
    values are those of the object that is returned; the two documents
    are taken not to share slice storage, as the results of two parses
    do not. *)
Definition appendChild (mergeSuffix : list StructuralItem)
  (mergeChild : Property) (baseContent : Object) : exec Object :=
  let lastChildIndex := Z.of_nat (length (Object_Children baseContent)) - 1 in
  lastChild <- index_at (Object_Children baseContent) lastChildIndex ;;
  baseContent <-
    (if Property_HasCommaSeparator lastChild then
       stripped <- stripWhiteSpace (Object_SuffixStructure baseContent) ;;
       Return (Object_set_SuffixStructure (stripped ++ mergeSuffix)%list
                 baseContent)
     else
       children <- update_at (Object_Children baseContent) lastChildIndex
                     (Property_set_HasCommaSeparator true) ;;
       let baseContent := Object_set_Children children baseContent in
       lastChild <- index_at (Object_Children baseContent) lastChildIndex ;;
       stripped <- stripWhiteSpace
                     (Value_SuffixStructure (Property_Value lastChild)) ;;
       children <- update_at (Object_Children baseContent) lastChildIndex
                     (fun p => Property_set_Value
                                 (Value_set_SuffixStructure stripped
                                    (Property_Value p)) p) ;;
       let baseContent := Object_set_Children children baseContent in
       if Property_HasCommaSeparator mergeChild then
         stripped <- stripWhiteSpace (Object_SuffixStructure baseContent) ;;
         Return (Object_set_SuffixStructure (stripped ++ mergeSuffix)%list
                   baseContent)
       else Return baseContent) ;;
  Return (Object_set_Children
            (Object_Children baseContent ++ [mergeChild])%list baseContent).

(** [for _, mergeChild := range mergeContent.Children]. *)
Fixpoint mergeValueContent_range (mergeSuffix : list StructuralItem)
  (mergeChildren : list Property) (baseContent : Object) : exec Object :=
  match mergeChildren with
  | [] => Return baseContent
  | mergeChild :: rest =>
      match getChildByKey baseContent
              (Identifier_Value (Property_Key mergeChild)) with
      | None =>
          baseContent <- appendChild mergeSuffix mergeChild baseContent ;;
          mergeValueContent_range mergeSuffix rest baseContent
      | Some _ =>
          mergeValueContent_range mergeSuffix rest baseContent
      end
  end.

Section WithStrconv.
Context `{Strconv}.

Definition mergeValueContent (baseValue mergeValue : ValueContent)
  (currentPath : string) : exec (ValueContent * option error) :=
  match baseValue with
  | CObject baseContent =>
      match mergeValue with
      | CObject mergeContent =>
          baseContent <- mergeValueContent_range
                           (Object_SuffixStructure mergeContent)
                           (Object_Children mergeContent) baseContent ;;
          Return (CObject baseContent, None)
      | mergeContent =>
          Return (CNil,
                  Some (errorString
                          ("mis-matched types at " +:+
                           strconv_Quote currentPath +:+
                           ". base type: " +:+ typeName baseValue +:+
                           ", merge type: " +:+ typeName mergeContent)))
      end
  | baseContent =>
      Return (CNil,
              Some (errorString
                      ("unhandled type at " +:+ strconv_Quote currentPath +:+
                       ". base type: " +:+ typeName baseContent)))
  end.

(** [MergeJSON]: the document it returns.  [result] is a copy of the
    base document whose [RootValue] is the base's pointer. *)
Definition MergeJSON (baseDocument mergeDocument : RootNode)
  : exec (option RootNode * option error) :=
  let result := baseDocument in
  baseRoot <- deref (RootValue result) ;;
  mergeRoot <- deref (RootValue mergeDocument) ;;
  r <- mergeValueContent (Value_Content baseRoot) (Value_Content mergeRoot)
         "$" ;;
  match r with
  | (_, Some err) => Return (None, Some err)
  | (newContent, None) =>
      Return (Some (mkRootNode
                      (Some (Value_set_Content newContent baseRoot))
                      (Type__ result)),
              None)
  end.

End WithStrconv.

(** The keys of a list of properties, in order. *)
Definition keysOf (children : list Property) : list string :=
  List.map (fun p => Identifier_Value (Property_Key p)) children.

(** [p'] is [p] up to the two fields the merge writes in a base
    property: its comma flag and the suffix structure of its value. *)
Definition sameEntry (p p' : Property) : Prop :=
  exists (comma : bool) (suffix : list StructuralItem),
    p' = Property_set_HasCommaSeparator comma
           (Property_set_Value
              (Value_set_SuffixStructure suffix (Property_Value p)) p).

(** Every property but the last is followed by a comma. *)
Definition commasBetween (children : list Property) : Prop :=
  forall (i : nat) (p : Property),
    children !! i = Some p -> (S i < length children)%nat ->
    Property_HasCommaSeparator p = true.

(** What the loop keeps, from the base it starts on to the object it
    returns. *)
Definition mergeInvariant (base : Object) (mergeChildren : list Property)
  (r : Object) : Prop :=
  (exists old' added,
      Object_Children r = (old' ++ added)%list /\
      Forall2 sameEntry (Object_Children base) old') /\
  (forall k, k ∈ keysOf (Object_Children r) <->
             k ∈ keysOf (Object_Children base) \/ k ∈ keysOf mergeChildren) /\
  (NoDup (keysOf (Object_Children base)) ->
   NoDup (keysOf (Object_Children r))) /\
  (commasBetween (Object_Children base) ->
   commasBetween (Object_Children r)).

End merge.

(* ===================================================================== *)
(** ** Documents and queries the statements below are run on *)
(* ===================================================================== *)
Module Examples.
Import ast dora.

(** An instance of the two [fmt] verbs for documents that hold no
    float64 and no value of another dynamic type: on those documents
    neither verb is called. *)
Definition fmtNotCalled : Fmt :=
  {| Sprintf_f := fun _ => "%f"; Sprintf_v := fun _ => "%v" |}.

(** [q s] is [s] between double quotes. *)
Definition q (s : string) : string := dquote +:+ s +:+ dquote.

Definition str (s : string) : Value :=
  VLiteral (mkLiteral LiteralType (AString s)).
Definition property (k : string) (v : Value) : Property :=
  mkProperty PropertyType (mkIdentifier IdentifierType k) v.
Definition objectAccess (k : string) : queryToken :=
  mkQueryToken ObjectAccess k 0.
Definition arrayAccess (i : Z) : queryToken :=
  mkQueryToken ArrayAccess "" i.
Definition client (buf : list byte) (root : Value) (t : RootNodeType)
  (tokens : list queryToken) : Client :=
  mkClient buf (mkRootNode (Some root) t) [] tokens "" None.

(** The document of the README, cut down to two members:
    an object with a string and an array of two strings. *)
Definition readmeText : string :=
  "{" +:+ q "name" +:+ ":" +:+ q "bradford" +:+ "," +:+
  q "someArray" +:+ ":[" +:+ q "some" +:+ "," +:+ q "values" +:+ "]}".
Definition readmeBuf : list byte := list_byte_of_string readmeText.
Definition someArray : Array :=
  mkArray ArrayType [str "some"; str "values"] 31 48 (Some readmeBuf).
Definition readmeRoot : Object :=
  mkObject ObjectType
    [property "name" (str "bradford");
     property "someArray" (VArray someArray)]
    0 49 (Some readmeBuf).
Definition readme (tokens : list queryToken) : Client :=
  client readmeBuf (VObject readmeRoot) ObjectRoot tokens.

(** An object with two string members, [a] and [b]. *)
Definition twoStringsBuf : list byte :=
  list_byte_of_string
    ("{" +:+ q "a" +:+ ":" +:+ q "x" +:+ "," +:+ q "b" +:+ ":" +:+ q "y" +:+ "}").
Definition twoStringsRoot : Object :=
  mkObject ObjectType [property "a" (str "x"); property "b" (str "y")]
    0 17 (Some twoStringsBuf).
Definition twoStrings (tokens : list queryToken) : Client :=
  client twoStringsBuf (VObject twoStringsRoot) ObjectRoot tokens.

(** An object that declares the key [a] twice: first with a string,
    then with an object that has a member [b]. *)
Definition duplicateBuf : list byte :=
  list_byte_of_string
    ("{" +:+ q "a" +:+ ":" +:+ q "x" +:+ "," +:+ q "a" +:+ ":{" +:+
     q "b" +:+ ":" +:+ q "y" +:+ "}}").
Definition duplicateInner : Object :=
  mkObject ObjectType [property "b" (str "y")] 13 22 (Some duplicateBuf).
Definition duplicateRoot : Object :=
  mkObject ObjectType
    [property "a" (str "x"); property "a" (VObject duplicateInner)]
    0 23 (Some duplicateBuf).
Definition duplicate (tokens : list queryToken) : Client :=
  client duplicateBuf (VObject duplicateRoot) ObjectRoot tokens.

(** An object whose only member is an empty array. *)
Definition emptyArrayBuf : list byte :=
  list_byte_of_string ("{" +:+ q "a" +:+ ":[]}").
Definition emptyArray : Array :=
  mkArray ArrayType [] 5 7 (Some emptyArrayBuf).
Definition emptyArrayRoot : Object :=
  mkObject ObjectType [property "a" (VArray emptyArray)]
    0 8 (Some emptyArrayBuf).
Definition emptyArrayDoc (tokens : list queryToken) : Client :=
  client emptyArrayBuf (VObject emptyArrayRoot) ObjectRoot tokens.

(** A tokenizer that is never reached. *)
Definition scanPanics (_ : list byte) : exec (list queryToken * option error) :=
  Panic (PanicValue "scanQueryTokens").

(** A tokenizer that answers with the given tokens. *)
Definition scanAs (tokens : list queryToken) (_ : list byte)
  : exec (list queryToken * option error) :=
  Return (tokens, None).

(** An instance of what package strconv contributes, for examples that
    neither quote a string nor parse a float. *)
Definition strconvNotCalled : Strconv :=
  {| strconv_Quote := fun s => s;
     strconv_ParseFloat := fun _ => (0%float, None) |}.

(** An object with a boolean member and a string member spelled like a
    boolean. *)
Definition flagsBuf : list byte :=
  list_byte_of_string
    ("{" +:+ q "someBool" +:+ ":true," +:+ q "t" +:+ ":" +:+ q "T" +:+ "}").
Definition flagsRoot : Object :=
  mkObject ObjectType
    [property "someBool" (VLiteral (mkLiteral LiteralType (ABool true)));
     property "t" (str "T")]
    0 25 (Some flagsBuf).
Definition flags : Client :=
  client flagsBuf (VObject flagsRoot) ObjectRoot [].
Definition flagsWith (tokens : list queryToken) : Client :=
  client flagsBuf (VObject flagsRoot) ObjectRoot tokens.

End Examples.

(* ===================================================================== *)
(** ** Documents the statements about package merge are run on *)
(* ===================================================================== *)
Module MergeExamples.
Import ast2 ast2nodes merge.

Definition ident (k : string) : Identifier :=
  mkIdentifier IdentifierType [] k [] dquote.
Definition text (s : string) : ast2nodes.Value :=
  mkValue []
    (CLiteral (mkLiteral LiteralType StringLiteralValueType (AString s)
                 dquote s))
    [mkStructuralItem WhitespaceStructuralItemType " "].
Definition member (k v : string) (comma : bool) : Property :=
  mkProperty PropertyType (ident k) (text v) comma.
Definition object (children : list Property) : Object :=
  mkObject ObjectType children 0 0 [] None.
Definition document (o : Object) : RootNode :=
  mkRootNode (Some (mkValue [] (CObject o) [])) ObjectRoot.

(** The objects with the members [a], [b], with the members [b], [c]
    and with none. *)
Definition baseAB : Object :=
  object [member "a" "1" true; member "b" "2" false].
Definition mergeBC : Object :=
  object [member "b" "x" true; member "c" "3" false].
Definition noMembers : Object := object [].

(** [baseAB] after [mergeBC] has been merged into it: [b] has got its
    comma and lost the white space after its value, [c] is appended. *)
Definition mergedABC : Object :=
  object [member "a" "1" true;
          mkProperty PropertyType (ident "b")
            (Value_set_SuffixStructure [] (text "2")) true;
          member "c" "3" false].

End MergeExamples.

(* ===================================================================== *)
(** ** Facts about the runtime operations *)
(* ===================================================================== *)
Section GoFacts.
Context {A : Type}.
Implicit Types (l : list A) (x : A).

Lemma index_at_lookup l (k : nat) x :
  l !! k = Some x -> index_at l (Z.of_nat k) = Return x.
Proof.
  intros Hk. unfold index_at.
  assert (Hlt : (k < length l)%nat) by (eapply lookup_lt_Some; eauto).
  replace (Z.of_nat k <? 0) with false by (symmetry; apply Z.ltb_ge; lia).
  replace (Z.of_nat (length l) <=? Z.of_nat k) with false
    by (symmetry; apply Z.leb_gt; lia).
  cbn. rewrite Nat2Z.id, Hk. reflexivity.
Qed.

Lemma index_at_beyond l (i : Z) :
  Z.of_nat (length l) <= i ->
  index_at l i = Panic (IndexOutOfRange i (Z.of_nat (length l))).
Proof.
  intros Hi. unfold index_at.
  replace (Z.of_nat (length l) <=? i) with true
    by (symmetry; apply Z.leb_le; lia).
  rewrite orb_true_r. reflexivity.
Qed.

Lemma index_at_Return l (i : Z) x :
  index_at l i = Return x ->
  0 <= i < Z.of_nat (length l) /\ l !! Z.to_nat i = Some x.
Proof.
  unfold index_at. intros Hx.
  destruct (i <? 0) eqn:H0; [discriminate|].
  destruct (Z.of_nat (length l) <=? i) eqn:H1; [discriminate|].
  apply Z.ltb_ge in H0. apply Z.leb_gt in H1. cbn in Hx.
  destruct (l !! Z.to_nat i) eqn:Hl; [|discriminate].
  split; [lia | congruence].
Qed.

Lemma slice_empty_prefix l : slice l 0 0 = Return [].
Proof.
  unfold slice.
  replace (0 <=? Z.of_nat (length l)) with true
    by (symmetry; apply Z.leb_le; lia).
  reflexivity.
Qed.

End GoFacts.

(* ===================================================================== *)
(** ** Facts about the loop of [executeQuery] *)
(* ===================================================================== *)
Section LoopFacts.
Import ast dora.
Context `{Fmt}.

Lemma sameQuery_refl c : sameQuery c c.
Proof. repeat split. Qed.

Lemma sameQuery_trans c1 c2 c3 :
  sameQuery c1 c2 -> sameQuery c2 c3 -> sameQuery c1 c3.
Proof.
  intros (?&?&?) (?&?&?). repeat split; etransitivity; eauto.
Qed.

Lemma setResultFromValue_sameQuery v c c' :
  setResultFromValue v c = Return c' -> sameQuery c c'.
Proof.
  unfold setResultFromValue. destruct v as [o|a|l|p|i]; cbn.
  - destruct (slice _ _ _); cbn; [|discriminate].
    intros [= <-]. repeat split.
  - destruct (Array_String a); cbn; [|discriminate].
    intros [= <-]. repeat split.
  - intros [= <-]. repeat split.
  - intros [= <-]. repeat split.
  - intros [= <-]. repeat split.
Qed.

Lemma setFinalValue_range_sameQuery r children c c' :
  setFinalValue_range r children c = Return c' -> sameQuery c c'.
Proof.
  induction children as [|v rest IH]; cbn.
  - intros [= <-]. apply sameQuery_refl.
  - destruct (String.eqb _ _); [apply setResultFromValue_sameQuery | apply IH].
Qed.

Lemma setFinalValue_sameQuery t i o a c c' :
  setFinalValue t i o a c = Return c' -> sameQuery c c'.
Proof.
  unfold setFinalValue. destruct (Type_eqb t ObjectType).
  - destruct (index_at (parsedQuery c) i); cbn; [|discriminate].
    apply setFinalValue_range_sameQuery.
  - destruct (index_at (parsedQuery c) i); cbn; [|discriminate].
    destruct (index_at (Array_Children a) _); cbn; [|discriminate].
    apply setResultFromValue_sameQuery.
Qed.

Lemma iteration_sameQuery len i l c s :
  iteration len i l c = Return s ->
  match s with
  | Next _ c' => sameQuery c c'
  | Stop _ c' => sameQuery c c'
  end.
Proof.
  unfold iteration.
  destruct (if i =? len - 1 then _ else _) as [c1|] eqn:Hfin;
    cbn; [|discriminate].
  assert (Hc1 : sameQuery c c1).
  { destruct (i =? len - 1).
    - eapply setFinalValue_sameQuery; eauto.
    - injection Hfin as <-. apply sameQuery_refl. }
  destruct (index_at (parsedQuery c1) i) as [qt|]; cbn; [|discriminate].
  destruct (accessType qt).
  - destruct (negb _); [intros [= <-]; exact Hc1|].
    destruct (rangeChildren _ _ _ _) as [found l'].
    destruct (negb found); intros [= <-]; exact Hc1.
  - destruct (negb _); [intros [= <-]; exact Hc1|].
    destruct (index_at (Array_Children _) _) as [val|]; cbn; [|discriminate].
    destruct val as [o|a|lit|p|id]; try (intros [= <-]; exact Hc1).
    destruct (i =? len - 1).
    + cbn. intros [= <-]. eapply sameQuery_trans; [exact Hc1|].
      apply (setResultFromValue_sameQuery (VLiteral lit)). reflexivity.
    + intros [= <-]; exact Hc1.
Qed.

Lemma runTo_sameQuery k : forall len i l c l' c',
  runTo k len i l c = Return (Next l' c') -> sameQuery c c'.
Proof.
  induction k as [|k IH]; cbn; intros len i l c l' c'.
  - intros [= <- <-]. apply sameQuery_refl.
  - destruct (iteration len i l c) as [s|] eqn:Hit; cbn; [|discriminate].
    apply iteration_sameQuery in Hit.
    destruct s as [l1 c1|]; [|discriminate].
    intros Hr. apply IH in Hr. eapply sameQuery_trans; eauto.
Qed.

(** The loop run for [k + m] iterations is its first [k] iterations
    followed by the remaining [m]. *)
Lemma forLoop_runTo k : forall m len i l c,
  forLoop (k + m) len i l c =
  (s <- runTo k len i l c ;;
   match s with
   | Next l' c' => forLoop m len (i + Z.of_nat k) l' c'
   | Stop err c' => Return (Some err, c')
   end).
Proof.
  induction k as [|k IH]; intros m len i l c.
  - cbn. rewrite Z.add_0_r. reflexivity.
  - cbn [Nat.add forLoop runTo].
    destruct (iteration len i l c) as [[l1 c1|err c1]|]; cbn; auto.
    rewrite IH. replace (i + 1 + Z.of_nat k) with (i + Z.of_nat (S k)) by lia.
    reflexivity.
Qed.

(** From iteration [k] on, [executeQuery] is the rest of the loop. *)
Lemma executeQuery_atIteration c0 k l c :
  atIteration c0 k l c ->
  (k <= length (parsedQuery c0))%nat ->
  executeQuery c0 =
  forLoop (length (parsedQuery c0) - k)
          (Z.of_nat (length (parsedQuery c0))) (Z.of_nat k) l c.
Proof.
  intros (rootVal & Hroot & Hrun) Hk. unfold executeQuery.
  rewrite Hroot. cbn.
  replace (length (parsedQuery c0)) with (k + (length (parsedQuery c0) - k))%nat at 1 by lia.
  rewrite forLoop_runTo, Hrun. cbn. reflexivity.
Qed.

Lemma atIteration_sameQuery c0 k l c :
  atIteration c0 k l c -> sameQuery c0 c.
Proof. intros (rootVal & _ & Hrun). eapply runTo_sameQuery; eauto. Qed.

End LoopFacts.

(* ===================================================================== *)
(** ** The root check of the query *)
(* ===================================================================== *)
Section RootCheck.
Import ast dora.

Lemma str_index_first (ch : ascii) (rest : string) :
  str_index (String ch rest) 0 = Return ch.
Proof. apply (index_at_lookup _ 0%nat). reflexivity. Qed.

Lemma str_index_second (c0 ch : ascii) (rest : string) :
  str_index (String c0 (String ch rest)) 1 = Return ch.
Proof. apply (index_at_lookup _ 1%nat). reflexivity. Qed.

Lemma validateQueryRoot_no_dollar (ch : ascii) (rest : string) t :
  ch <> "$"%char ->
  validateQueryRoot (String ch rest) t = Return (Some ErrNoDollarSignRoot).
Proof.
  intros Hch. unfold validateQueryRoot. rewrite str_index_first. cbn.
  destruct (Ascii.eqb ch "$") eqn:E; [apply Ascii.eqb_eq in E; contradiction|].
  reflexivity.
Qed.

Lemma validateQueryRoot_only_dollar t :
  validateQueryRoot "$" t = Panic (IndexOutOfRange 1 1).
Proof. reflexivity. Qed.

(** C2.  On the empty query string [validateQueryRoot] reads [query[0]]
    out of range: the call, and with it [prepareQuery], ends in a
    run-time panic and returns no error value. *)
Theorem C2_empty_query_panics :
  forall (scan : list byte -> exec (list queryToken * option error))
         (t : RootNodeType) (c : Client),
    validateQueryRoot "" t = Panic (IndexOutOfRange 0 0) /\
    prepareQuery scan "" t c = Panic (IndexOutOfRange 0 0).
Proof. intros scan t c. split; reflexivity. Qed.

(** A query that starts with [$] and has a second character, which is
    not the selector of the root's shape ([.] for ObjectRoot, [[] for
    ArrayRoot), makes [prepareQuery] return the root-selector error of
    that shape, whatever the tokenizer is: the client is returned as it
    was, neither the query nor any token has been set. *)
Lemma prepareQuery_root_selector_mismatch :
  forall (scan : list byte -> exec (list queryToken * option error))
         (c : Client) (ch : ascii) (rest : string) (t : RootNodeType),
    match Type__ (tree c) with
    | ObjectRoot => ch <> "."%char
    | ArrayRoot => ch <> "["%char
    end ->
    prepareQuery scan (String "$" (String ch rest)) t c =
    Return (Some match Type__ (tree c) with
                 | ObjectRoot => ErrWrongObjectRootSelector
                 | ArrayRoot => ErrWrongArrayRootSelector
                 end, c).
Proof.
  intros scan c ch rest t Hch.
  unfold prepareQuery, validateQueryRoot.
  rewrite str_index_first, str_index_second. cbn.
  destruct (Type__ (tree c)); cbn.
  - destruct (Ascii.eqb ch ".") eqn:E;
      [apply Ascii.eqb_eq in E; contradiction | reflexivity].
  - destruct (Ascii.eqb ch "[") eqn:E;
      [apply Ascii.eqb_eq in E; contradiction | reflexivity].
Qed.

Lemma prepareQuery_root_selector_mismatch_example :
  prepareQuery Examples.scanPanics "$[0]" ObjectRoot (Examples.readme []) =
    Return (Some ErrWrongObjectRootSelector, Examples.readme []) /\
  prepareQuery Examples.scanPanics "$.objKey" ArrayRoot
    (Examples.client [] (VArray (mkArray ArrayType [] 0 0 None)) ArrayRoot []) =
    Return (Some ErrWrongArrayRootSelector,
            Examples.client [] (VArray (mkArray ArrayType [] 0 0 None)) ArrayRoot []).
Proof.
  split.
  - apply (prepareQuery_root_selector_mismatch Examples.scanPanics
             (Examples.readme []) "["%char "0]" ObjectRoot).
    cbn. discriminate.
  - apply (prepareQuery_root_selector_mismatch Examples.scanPanics
             (Examples.client [] (VArray (mkArray ArrayType [] 0 0 None)) ArrayRoot [])
             "."%char "objKey" ArrayRoot).
    cbn. discriminate.
Qed.

(** C4.  The query [$] starts with [$] and has no second character, so
    none that is the selector of the root's shape.  On it
    [validateQueryRoot] reads [query[1]] out of range: for a tree of
    either root type the call, [prepareQuery], which makes it first,
    and [prepAndExecQuery] end in a run-time panic, whatever the
    tokenizer is; no root-selector error is returned. *)
Theorem C4_dollar_alone_panics :
  forall (F : Fmt)
         (scan : list byte -> exec (list queryToken * option error))
         (t : RootNodeType) (c : Client),
    validateQueryRoot "$" t = Panic (IndexOutOfRange 1 1) /\
    prepareQuery scan "$" t c = Panic (IndexOutOfRange 1 1) /\
    @prepAndExecQuery F scan "$" c = Panic (IndexOutOfRange 1 1).
Proof. intros F scan t c. repeat split; reflexivity. Qed.

End RootCheck.

(* ===================================================================== *)
(** ** [stripWhiteSpace] *)
(* ===================================================================== *)
Section StripWhiteSpace.
Import ast2 merge.

(** The loop reads only indices below [k], so it returns. *)
Lemma stripWhiteSpace_for_returns items (k : nat) :
  (k <= length items)%nat -> returns (stripWhiteSpace_for items k).
Proof.
  induction k as [|k IH]; intros Hk; cbn.
  - eexists; reflexivity.
  - destruct (lookup_lt_is_Some_2 items k ltac:(lia)) as [item Hitem].
    rewrite (index_at_lookup _ _ _ Hitem). cbn.
    destruct (negb _); [eexists; reflexivity | apply IH; lia].
Qed.

(** C10.  [stripWhiteSpace] returns the empty list on every list of
    structural items: the index the slice expression reads is the outer
    variable, which the loop never assigns, so no item of the input is
    kept, leading non-whitespace items included. *)
Theorem C10_stripWhiteSpace_empty :
  forall items : list StructuralItem, stripWhiteSpace items = Return [].
Proof.
  intros items. unfold stripWhiteSpace.
  destruct (stripWhiteSpace_for_returns items (length items)) as [i ->];
    [lia|].
  cbn. apply slice_empty_prefix.
Qed.

End StripWhiteSpace.

(* ===================================================================== *)
(** ** The generic conversion [GoType] *)
(* ===================================================================== *)
Section Generic.
Import ast dora.

(** The keys of an object's properties, in declaration order: the
    [Value] field of each property's [Key]. *)
Local Abbreviation keysOf children :=
  (List.map (fun p : Property => Identifier_Value (Property_Key p)) children).

(** The assignments of [Object.GoType], started from any map. *)
Local Abbreviation assignAll children start :=
  (fold_left
     (fun (result : gmap string any) (property : Property) =>
        match property with
        | mkProperty _ k v =>
            <[ Identifier_String k := Value_GoType v ]> result
        end) children start).

Lemma assignAll_lookup (children : list Property) :
  forall (start : gmap string any) (k : string),
    assignAll children start !! k =
    match lastWithKey k children with
    | Some p => Some (Value_GoType (Property_Value p))
    | None => start !! k
    end.
Proof.
  induction children as [|p rest IH]; intros start k; cbn [fold_left lastWithKey].
  - reflexivity.
  - rewrite IH. destruct (lastWithKey k rest) as [q|]; [reflexivity|].
    destruct p as [t id v]. cbn. unfold Identifier_String.
    destruct (String.eqb (Identifier_Value id) k) eqn:E.
    + apply String.eqb_eq in E. subst k. apply lookup_insert_eq.
    + apply String.eqb_neq in E. apply lookup_insert_ne. exact E.
Qed.

Lemma assignAll_dom (children : list Property) :
  forall start : gmap string any,
    dom (assignAll children start) =
    list_to_set (keysOf children) ∪ dom start.
Proof.
  induction children as [|p rest IH]; intros start; cbn [fold_left List.map].
  - rewrite list_to_set_nil. set_solver.
  - rewrite IH. destruct p as [t id v]. cbn.
    rewrite dom_insert_L. set_solver.
Qed.

Lemma list_to_set_remove_dups_string (l : list string) :
  list_to_set (C:=gset string) (remove_dups l) = list_to_set l.
Proof.
  apply set_eq. intros x.
  rewrite !elem_of_list_to_set. apply elem_of_remove_dups.
Qed.

Lemma Object_GoType_lookup (o : Object) :
  exists m : gmap string any,
    Value_GoType (VObject o) = AMap m /\
    forall k : string,
      m !! k =
      (fun p => Value_GoType (Property_Value p)) <$>
        lastWithKey k (Object_Children o).
Proof.
  destruct o as [t children s e b].
  exists (assignAll children ∅). split; [reflexivity|].
  intros k. cbn [Object_Children]. rewrite assignAll_lookup.
  destruct (lastWithKey k children); reflexivity.
Qed.

(** C9.  [GoType] maps a literal to the decoded value it holds, an
    array to the sequence of the [GoType]s of its children in order,
    and an object to a map with exactly one entry per distinct key of
    its properties, the key of a property being the [Value] field of
    its [Key]: the keys of the map are those strings, there are as many
    entries as distinct ones among them, and each is bound to the
    [GoType] of the value of the last property declared with it. *)
Theorem C9_GoType_generic :
  forall (l : Literal) (a : Array) (o : Object),
    Value_GoType (VLiteral l) = Literal_Value l /\
    Value_GoType (VArray a) =
      ASlice (List.map Value_GoType (Array_Children a)) /\
    exists m : gmap string any,
      Value_GoType (VObject o) = AMap m /\
      dom m = list_to_set (keysOf (Object_Children o)) /\
      size m = length (remove_dups (keysOf (Object_Children o))) /\
      forall k : string,
        m !! k =
        (fun p => Value_GoType (Property_Value p)) <$>
          lastWithKey k (Object_Children o).
Proof.
  intros l a o. split; [reflexivity|]. split.
  - destruct a as [t children s e b]. reflexivity.
  - destruct o as [t children s e b].
    exists (assignAll children ∅). cbn [Object_Children].
    assert (Hdom : dom (assignAll children ∅) =
                   list_to_set (C:=gset string) (keysOf children)).
    { rewrite assignAll_dom. set_solver. }
    split; [reflexivity|]. split; [exact Hdom|]. split.
    + rewrite <- size_dom, Hdom, <- list_to_set_remove_dups_string.
      apply size_list_to_set, NoDup_remove_dups.
    + intros k. rewrite assignAll_lookup.
      destruct (lastWithKey k children); reflexivity.
Qed.

(** [GetObject] hands back the [GoType] of the value the query ended
    on. *)
Lemma GetObject_is_GoType `{Fmt}
  (scan : list byte -> exec (list queryToken * option error))
  (query_ : string) (c c' : Client) (g : any) :
  GetObject scan query_ c = Return (Some g, None, c') ->
  exists v, resultValue c' = Some v /\ g = Value_GoType v.
Proof.
  unfold GetObject.
  destruct (prepAndExecQuery scan query_ c) as [[[err|] c1]|];
    cbn; try discriminate.
  destruct (resultValue c1) as [v|] eqn:Hv; cbn; [|discriminate].
  intros [= <- <-]. exists v. split; [exact Hv | reflexivity].
Qed.

End Generic.

(* ===================================================================== *)
(** ** One step of the traversal *)
(* ===================================================================== *)
Section Traversal.
Import ast dora.
Context `{Fmt}.

Lemma firstWithKey_None k children :
  (forall p, p ∈ children -> Identifier_Value (Property_Key p) <> k) ->
  firstWithKey k children = None.
Proof.
  induction children as [|p rest IH]; intros Hno; cbn; [reflexivity|].
  destruct (String.eqb _ k) eqn:E.
  - apply String.eqb_eq in E. exfalso. eapply Hno; [|exact E]. left.
  - apply IH. intros p' Hp'. apply Hno. right. exact Hp'.
Qed.

Lemma rangeChildren_not_found k children : forall found l,
  firstWithKey k children = None ->
  rangeChildren k children found l = (found, l).
Proof.
  induction children as [|p rest IH]; intros found l; cbn; [reflexivity|].
  destruct (String.eqb _ k); [discriminate | apply IH].
Qed.

(** The loop of [setFinalValue] acts on the first property with the
    key, if there is one. *)
Lemma setFinalValue_range_first r children c :
  setFinalValue_range r children c =
  match firstWithKey r children with
  | Some p => setResultFromValue (Property_Value p) c
  | None => Return c
  end.
Proof.
  induction children as [|p rest IH]; cbn; [reflexivity|].
  rewrite String.eqb_sym.
  destruct (String.eqb _ r); [reflexivity | apply IH].
Qed.

(** The iteration on an object-key token whose key no property of the
    cursor object has. *)
Lemma iteration_key_not_found len i l c qt :
  index_at (parsedQuery c) i = Return qt ->
  accessType qt = ObjectAccess ->
  currentType l = ObjectType ->
  firstWithKey (key qt) (Object_Children (obj l)) = None ->
  iteration len i l c = Return (Stop (errKeyNotFound (key qt)) c).
Proof.
  intros Hqt Hacc Hcur Hno. unfold iteration, setFinalValue.
  rewrite Hcur. cbn [Type_eqb]. rewrite Hqt. cbn [bind].
  rewrite setFinalValue_range_first, Hno.
  destruct (i =? len - 1); cbn [bind]; rewrite Hqt; cbn [bind];
    rewrite Hacc; cbn [negb];
    rewrite rangeChildren_not_found by exact Hno; reflexivity.
Qed.

(** The iteration on an array-index token whose index is not below the
    length of the cursor array. *)
Lemma iteration_index_beyond len i l c qt :
  index_at (parsedQuery c) i = Return qt ->
  accessType qt = ArrayAccess ->
  currentType l = ArrayType ->
  Z.of_nat (length (Array_Children (arr l))) <= index qt ->
  iteration len i l c =
  Panic (IndexOutOfRange (index qt)
           (Z.of_nat (length (Array_Children (arr l))))).
Proof.
  intros Hqt Hacc Hcur Hlen. unfold iteration, setFinalValue.
  rewrite Hcur. cbn [Type_eqb]. rewrite Hqt. cbn [bind].
  rewrite (index_at_beyond _ _ Hlen).
  destruct (i =? len - 1); cbn [bind]; [reflexivity|].
  rewrite Hqt; cbn [bind]. rewrite Hacc. cbn [negb Type_eqb].
  rewrite (index_at_beyond _ _ Hlen). reflexivity.
Qed.

(** A non-final array-index token that lands on a literal ends the
    query with an error. *)
Lemma iteration_index_literal len i l c qt lit :
  (i =? len - 1) = false ->
  index_at (parsedQuery c) i = Return qt ->
  accessType qt = ArrayAccess ->
  currentType l = ArrayType ->
  index_at (Array_Children (arr l)) (index qt) = Return (VLiteral lit) ->
  iteration len i l c = Return (Stop errQueryNotRight c).
Proof.
  intros Hi Hqt Hacc Hcur Hval. unfold iteration.
  rewrite Hi. cbn [bind]. rewrite Hqt. cbn [bind].
  rewrite Hacc, Hcur. cbn [negb Type_eqb]. rewrite Hval. reflexivity.
Qed.

(** A non-final token of the kind the cursor is not. *)
Lemma iteration_type_mismatch len i l c qt :
  (i =? len - 1) = false ->
  index_at (parsedQuery c) i = Return qt ->
  (accessType qt = ObjectAccess /\ currentType l = ArrayType ->
   iteration len i l c = Return (Stop errAskedObjectFoundArray c)) /\
  (accessType qt = ArrayAccess /\ currentType l = ObjectType ->
   iteration len i l c = Return (Stop errAskedArrayFoundObject c)).
Proof.
  intros Hi Hqt. unfold iteration. rewrite Hi. cbn [bind].
  rewrite Hqt. cbn [bind].
  split; intros [-> ->]; reflexivity.
Qed.

(** The first step of the rest of the loop. *)
Lemma executeQuery_step c0 k l c qt :
  atIteration c0 k l c ->
  parsedQuery c0 !! k = Some qt ->
  index_at (parsedQuery c) (Z.of_nat k) = Return qt /\
  executeQuery c0 =
  (s <- iteration (Z.of_nat (length (parsedQuery c0))) (Z.of_nat k) l c ;;
   match s with
   | Next l' c' =>
       forLoop (length (parsedQuery c0) - S k)
               (Z.of_nat (length (parsedQuery c0))) (Z.of_nat k + 1) l' c'
   | Stop err c' => Return (Some err, c')
   end).
Proof.
  intros Hat Hqt.
  assert (Hk : (k < length (parsedQuery c0))%nat)
    by (eapply lookup_lt_Some; eauto).
  destruct (atIteration_sameQuery _ _ _ _ Hat) as (_ & _ & Hpq).
  split.
  - rewrite Hpq. apply index_at_lookup. exact Hqt.
  - rewrite (executeQuery_atIteration _ _ _ _ Hat) by lia.
    replace (length (parsedQuery c0) - k)%nat
      with (S (length (parsedQuery c0) - S k)) by lia.
    reflexivity.
Qed.

(** C7.  When the loop is at an object-key token, the cursor is an
    object and none of its properties has the requested key,
    [executeQuery] returns the key-not-found error, whose message ends
    with that key; this holds on the final token and before it. *)
Theorem C7_key_not_found :
  forall (c0 : Client) (k : nat) (l : locals) (c : Client) (qt : queryToken),
    atIteration c0 k l c ->
    parsedQuery c0 !! k = Some qt ->
    accessType qt = ObjectAccess ->
    currentType l = ObjectType ->
    (forall p, p ∈ Object_Children (obj l) ->
               Identifier_Value (Property_Key p) <> key qt) ->
    executeQuery c0 = Return (Some (errKeyNotFound (key qt)), c) /\
    Error (errKeyNotFound (key qt)) =
      "Sorry, could not find a key with that value. Key: " +:+ key qt.
Proof.
  intros c0 k l c qt Hat Hqt Hacc Hcur Hno.
  destruct (executeQuery_step _ _ _ _ _ Hat Hqt) as [Hidx ->].
  split; [|reflexivity].
  rewrite (iteration_key_not_found _ _ _ _ _ Hidx Hacc Hcur
             (firstWithKey_None _ _ Hno)).
  reflexivity.
Qed.

(** C1.  When the loop is at an array-index token, the cursor is an
    array and the index is not below the array's length,
    [executeQuery] ends in the run-time panic of the out-of-range index
    expression: no error value comes back to the caller.  This holds on
    the final token (the panic is raised in [setFinalValue]) and before
    it. *)
Theorem C1_index_beyond_length_panics :
  forall (c0 : Client) (k : nat) (l : locals) (c : Client) (qt : queryToken),
    atIteration c0 k l c ->
    parsedQuery c0 !! k = Some qt ->
    accessType qt = ArrayAccess ->
    currentType l = ArrayType ->
    Z.of_nat (length (Array_Children (arr l))) <= index qt ->
    executeQuery c0 =
    Panic (IndexOutOfRange (index qt)
             (Z.of_nat (length (Array_Children (arr l))))).
Proof.
  intros c0 k l c qt Hat Hqt Hacc Hcur Hlen.
  destruct (executeQuery_step _ _ _ _ _ Hat Hqt) as [Hidx ->].
  rewrite (iteration_index_beyond _ _ _ _ _ Hidx Hacc Hcur Hlen).
  reflexivity.
Qed.

Lemma Type_eqb_eq (a b : Type_) : Type_eqb a b = true -> a = b.
Proof. destruct a, b; cbn; congruence. Qed.

(** The rendering of a literal is what [Literal.String] returns. *)
Lemma stringForm_literal input l r :
  stringForm input (VLiteral l) r <-> r = Literal_String l.
Proof.
  unfold stringForm, Literal_String, strconv_Itoa, sprintf_v_bool.
  destruct (Literal_Value l); apply iff_refl.
Qed.

Lemma setResultFromValue_stringForm v c c1 :
  setResultFromValue v c = Return c1 ->
  resultValue c1 = Some v /\ stringForm (input c) v (result c1).
Proof.
  unfold setResultFromValue. destruct v as [o|a|l|p|i]; cbn.
  - destruct (slice _ _ _) as [bs|] eqn:Hs; cbn; [|discriminate].
    intros [= <-]. split; [reflexivity|]. exists bs. split; reflexivity.
  - unfold Array_String.
    destruct (Array_sourceBuf a) as [buf|] eqn:Hb; cbn; [|discriminate].
    destruct (slice _ _ _) as [bs|] eqn:Hs; cbn; [|discriminate].
    intros [= <-]. split; [reflexivity|]. exists buf, bs. repeat split; auto.
  - intros [= <-]. split; [reflexivity|].
    apply (proj2 (stringForm_literal (input c) l _)). reflexivity.
  - intros [= <-]. split; [reflexivity | exact I].
  - intros [= <-]. split; [reflexivity | exact I].
Qed.

(** The final iteration, when it falls through: the client holds the
    value the token resolves to at the cursor, and its string form. *)
Lemma final_iteration_result len i l c qt l' c' :
  (i =? len - 1) = true ->
  index_at (parsedQuery c) i = Return qt ->
  iteration len i l c = Return (Next l' c') ->
  exists v,
    currentType l = cursorFor qt /\
    resolvesTo qt l = Some v /\
    resultValue c' = Some v /\
    stringForm (input c) v (result c').
Proof.
  intros Hfin Hqt. unfold iteration. rewrite Hfin.
  destruct (setFinalValue _ _ _ _ c) as [c1|] eqn:Hsf; cbn [bind];
    [|discriminate].
  destruct (setFinalValue_sameQuery _ _ _ _ _ _ Hsf) as (Hin & _ & Hpq).
  rewrite Hpq, Hqt. cbn [bind].
  unfold setFinalValue in Hsf. rewrite Hqt in Hsf. cbn [bind] in Hsf.
  unfold resolvesTo, cursorFor.
  destruct (accessType qt) eqn:Hacc.
  - destruct (Type_eqb (currentType l) ObjectType) eqn:Hcur; cbn [negb];
      [|discriminate].
    rewrite setFinalValue_range_first in Hsf.
    destruct (firstWithKey (key qt) (Object_Children (obj l))) as [p|] eqn:Hp.
    + destruct (rangeChildren _ _ _ _) as [found l2].
      destruct found; cbn [negb]; [|discriminate]. intros [= <- <-].
      exists (Property_Value p).
      destruct (setResultFromValue_stringForm _ _ _ Hsf) as [Hv Hs].
      split; [apply Type_eqb_eq; exact Hcur|]. auto.
    + rewrite rangeChildren_not_found by exact Hp. cbn. discriminate.
  - destruct (Type_eqb (currentType l) ArrayType) eqn:Hcur; cbn [negb];
      [|discriminate].
    apply Type_eqb_eq in Hcur. rewrite Hcur in Hsf. cbn [Type_eqb] in Hsf.
    destruct (index_at (Array_Children (arr l)) (index qt)) as [v|] eqn:Hv;
      cbn [bind] in Hsf |- *; [|discriminate].
    destruct (index_at_Return _ _ _ Hv) as [Hrange Hlook].
    replace (index qt <? 0) with false by (symmetry; apply Z.ltb_ge; lia).
    destruct (setResultFromValue_stringForm _ _ _ Hsf) as [Hrv Hs].
    intros Hnext. exists v. split; [exact Hcur|]. split; [exact Hlook|].
    destruct v as [o|a|lit|p|id]; injection Hnext as <- <-; auto.
    split; [reflexivity|].
    apply (proj2 (stringForm_literal (input c) lit _)). reflexivity.
Qed.

(** C8.  When [executeQuery] returns no error on a query of at least
    one token, the client is left with the value the final token
    resolves to at the cursor of the final iteration (the value itself,
    also when it is an object or an array), and with its string form:
    the bytes of the source buffer from [Start] up to [End] for an
    object or an array; for a literal the rendering of the decoded
    value, which is the string itself for a string, [true] or [false]
    for a boolean, [null] for nil, the decimal numeral for an int and
    the output of the verb [%f] for a float64. *)
Theorem C8_result_of_successful_query :
  forall (c0 c' : Client),
    executeQuery c0 = Return (None, c') ->
    parsedQuery c0 <> [] ->
    exists (k : nat) (l : locals) (c : Client) (qt : queryToken) (v : Value),
      S k = length (parsedQuery c0) /\
      atIteration c0 k l c /\
      parsedQuery c0 !! k = Some qt /\
      currentType l = cursorFor qt /\
      resolvesTo qt l = Some v /\
      resultValue c' = Some v /\
      stringForm (input c0) v (result c').
Proof.
  intros c0 c' Hex Hne.
  destruct (length (parsedQuery c0)) as [|k] eqn:Hlen.
  { destruct (parsedQuery c0); [congruence | discriminate]. }
  destruct (lookup_lt_is_Some_2 (parsedQuery c0) k ltac:(lia)) as [qt Hqt].
  unfold executeQuery in Hex.
  destruct (RootValue (tree c0)) as [rootVal|] eqn:Hroot; cbn in Hex;
    [|discriminate].
  rewrite Hlen in Hex. replace (S k) with (k + 1)%nat in Hex at 1 by lia.
  rewrite forLoop_runTo in Hex.
  destruct (runTo k _ 0 _ c0) as [[l c|err c]|] eqn:Hrun; cbn [bind] in Hex;
    try discriminate.
  assert (Hat : atIteration c0 k l c).
  { exists rootVal. rewrite Hlen. auto. }
  destruct (atIteration_sameQuery _ _ _ _ Hat) as (Hin & _ & Hpq).
  cbn [forLoop] in Hex.
  destruct (iteration _ _ l c) as [[l1 c1|err c1]|] eqn:Hit; cbn [bind] in Hex;
    try discriminate.
  injection Hex as <-.
  assert (Hfin : (0 + Z.of_nat k =? Z.of_nat (S k) - 1) = true)
    by (apply Z.eqb_eq; lia).
  assert (Hidx : index_at (parsedQuery c) (0 + Z.of_nat k) = Return qt)
    by (rewrite Hpq, Z.add_0_l; apply index_at_lookup; exact Hqt).
  destruct (final_iteration_result _ _ _ _ _ _ _ Hfin Hidx Hit)
    as (v & Hcur & Hres & Hrv & Hs).
  exists k, l, c, qt, v. rewrite <- Hin. auto 10.
Qed.

End Traversal.


(* ===================================================================== *)
(** ** The statements above on the example documents *)
(* ===================================================================== *)
Section Scenarios.
Import ast dora Examples.

Lemma C7_key_not_found_witness :
  @executeQuery fmtNotCalled (readme [objectAccess "age"]) =
    Return (Some (errKeyNotFound "age"), readme [objectAccess "age"]) /\
  Error (errKeyNotFound "age") =
    "Sorry, could not find a key with that value. Key: " +:+ "age".
Proof.
  apply (@C7_key_not_found fmtNotCalled
           (readme [objectAccess "age"]) 0%nat
           (initialLocals (VObject readmeRoot))
           (readme [objectAccess "age"]) (objectAccess "age")).
  - exists (VObject readmeRoot). split; reflexivity.
  - reflexivity.
  - reflexivity.
  - reflexivity.
  - intros p Hp. cbn in Hp.
    apply elem_of_cons in Hp as [-> | Hp]; [cbn; discriminate|].
    apply elem_of_cons in Hp as [-> | Hp]; [cbn; discriminate|].
    apply elem_of_nil in Hp. destruct Hp.
Defined.

Lemma C1_index_beyond_length_panics_witness :
  @executeQuery fmtNotCalled
    (readme [objectAccess "someArray"; arrayAccess 2]) =
    Panic (IndexOutOfRange 2 2) /\
  @executeQuery fmtNotCalled
    (readme [objectAccess "someArray"; arrayAccess 2; objectAccess "x"]) =
    Panic (IndexOutOfRange 2 2).
Proof.
  split.
  - apply (@C1_index_beyond_length_panics fmtNotCalled
             (readme [objectAccess "someArray"; arrayAccess 2]) 1%nat
             (mkLocals readmeRoot someArray ArrayType)
             (readme [objectAccess "someArray"; arrayAccess 2])
             (arrayAccess 2)).
    + exists (VObject readmeRoot). split; reflexivity.
    + reflexivity.
    + reflexivity.
    + reflexivity.
    + cbn. lia.
  - apply (@C1_index_beyond_length_panics fmtNotCalled
             (readme [objectAccess "someArray"; arrayAccess 2; objectAccess "x"])
             1%nat
             (mkLocals readmeRoot someArray ArrayType)
             (readme [objectAccess "someArray"; arrayAccess 2; objectAccess "x"])
             (arrayAccess 2)).
    + exists (VObject readmeRoot). split; reflexivity.
    + reflexivity.
    + reflexivity.
    + reflexivity.
    + cbn. lia.
Defined.

Lemma C8_result_of_successful_query_witness :
  (exists (k : nat) (l : locals) (c : Client) (qt : queryToken) (v : Value),
    S k = length (parsedQuery (readme [objectAccess "someArray"])) /\
    @atIteration fmtNotCalled (readme [objectAccess "someArray"]) k l c /\
    parsedQuery (readme [objectAccess "someArray"]) !! k = Some qt /\
    currentType l = cursorFor qt /\
    resolvesTo qt l = Some v /\
    resultValue
      (set_result ("[" +:+ q "some" +:+ "," +:+ q "values" +:+ "]")
         (set_resultValue (VArray someArray)
            (readme [objectAccess "someArray"]))) = Some v /\
    @stringForm fmtNotCalled (input (readme [objectAccess "someArray"])) v
      (result
         (set_result ("[" +:+ q "some" +:+ "," +:+ q "values" +:+ "]")
            (set_resultValue (VArray someArray)
               (readme [objectAccess "someArray"]))))) /\
  (exists (k : nat) (l : locals) (c : Client) (qt : queryToken) (v : Value),
    S k = length (parsedQuery (flagsWith [objectAccess "someBool"])) /\
    @atIteration fmtNotCalled (flagsWith [objectAccess "someBool"]) k l c /\
    parsedQuery (flagsWith [objectAccess "someBool"]) !! k = Some qt /\
    currentType l = cursorFor qt /\
    resolvesTo qt l = Some v /\
    resultValue
      (set_result "true"
         (set_resultValue (VLiteral (mkLiteral LiteralType (ABool true)))
            (flagsWith [objectAccess "someBool"]))) = Some v /\
    @stringForm fmtNotCalled (input (flagsWith [objectAccess "someBool"])) v
      (result
         (set_result "true"
            (set_resultValue (VLiteral (mkLiteral LiteralType (ABool true)))
               (flagsWith [objectAccess "someBool"]))))).
Proof.
  split.
  - apply (@C8_result_of_successful_query fmtNotCalled
             (readme [objectAccess "someArray"])
             (set_result ("[" +:+ q "some" +:+ "," +:+ q "values" +:+ "]")
                (set_resultValue (VArray someArray)
                   (readme [objectAccess "someArray"])))).
    + vm_compute. reflexivity.
    + discriminate.
  - apply (@C8_result_of_successful_query fmtNotCalled
             (flagsWith [objectAccess "someBool"])
             (set_result "true"
                (set_resultValue (VLiteral (mkLiteral LiteralType (ABool true)))
                   (flagsWith [objectAccess "someBool"])))).
    + vm_compute. reflexivity.
    + discriminate.
Defined.

(** C3.  On the object with the two string members [a] and [b], the
    query of the tokens [a], [b] returns no error: the first token
    resolves to a string, the loop keeps the root object as its cursor,
    and the second token is looked up in that same object, so the result
    is the value of the root's [b]. *)
Theorem C3_key_after_literal_returns_no_error :
  forall F : Fmt,
    resolvesTo (objectAccess "a") (initialLocals (VObject twoStringsRoot)) =
      Some (str "x") /\
    @executeQuery F (twoStrings [objectAccess "a"; objectAccess "b"]) =
      Return (None,
              set_result "y"
                (set_resultValue (str "y")
                   (twoStrings [objectAccess "a"; objectAccess "b"]))).
Proof. intros F. split; reflexivity. Qed.

(** C5.  On the object whose member [a] is an empty array, the query of
    the tokens [a], [b] reaches its final, object-key token with an
    array cursor and ends in a run-time panic: [setFinalValue] indexes
    the empty array before the kind of the token is compared with the
    kind of the cursor. *)
Theorem C5_key_on_empty_array_panics :
  forall F : Fmt,
    @runTo F 1 2 0 (initialLocals (VObject emptyArrayRoot))
      (emptyArrayDoc [objectAccess "a"; objectAccess "b"]) =
      Return (Next (mkLocals emptyArrayRoot emptyArray ArrayType)
                (emptyArrayDoc [objectAccess "a"; objectAccess "b"])) /\
    @executeQuery F (emptyArrayDoc [objectAccess "a"; objectAccess "b"]) =
      Panic (IndexOutOfRange 0 0).
Proof. intros F. split; reflexivity. Qed.

(** C6.  On the object that declares [a] twice, first with a string and
    then with an object, the query of the tokens [a], [b] returns the
    member [b] of the second [a]: the first property with the key [a] is
    the string, and the loop goes past it to the next property with that
    key. *)
Theorem C6_second_duplicate_is_reached :
  forall F : Fmt,
    firstWithKey "a" (Object_Children duplicateRoot) =
      Some (property "a" (str "x")) /\
    @runTo F 1 2 0 (initialLocals (VObject duplicateRoot))
      (duplicate [objectAccess "a"; objectAccess "b"]) =
      Return (Next (mkLocals duplicateInner zeroArray ObjectType)
                (duplicate [objectAccess "a"; objectAccess "b"])) /\
    @executeQuery F (duplicate [objectAccess "a"; objectAccess "b"]) =
      Return (None,
              set_result "y"
                (set_resultValue (str "y")
                   (duplicate [objectAccess "a"; objectAccess "b"]))).
Proof. intros F. repeat split; reflexivity. Qed.

End Scenarios.


(* ===================================================================== *)
(** ** What [executeQuery] writes, which errors it returns, and the
       queries it answers as first-match lookup does *)
(* ===================================================================== *)
Section ExecuteQueryFacts.
Import ast dora.
Context `{Fmt}.

Lemma setResultFromValue_query v c c' :
  setResultFromValue v c = Return c' -> query c' = query c.
Proof.
  unfold setResultFromValue. destruct v as [o|a|l|p|i]; cbn.
  - destruct (slice _ _ _); cbn; [|discriminate]. intros [= <-]. reflexivity.
  - destruct (Array_String a); cbn; [|discriminate]. intros [= <-]. reflexivity.
  - intros [= <-]. reflexivity.
  - intros [= <-]. reflexivity.
  - intros [= <-]. reflexivity.
Qed.

Lemma setFinalValue_query t i o a c c' :
  setFinalValue t i o a c = Return c' -> query c' = query c.
Proof.
  unfold setFinalValue. destruct (Type_eqb t ObjectType).
  - destruct (index_at (parsedQuery c) i) as [qt|]; cbn; [|discriminate].
    rewrite setFinalValue_range_first.
    destruct (firstWithKey _ _); [apply setResultFromValue_query|].
    intros [= <-]. reflexivity.
  - destruct (index_at (parsedQuery c) i); cbn; [|discriminate].
    destruct (index_at (Array_Children a) _); cbn; [|discriminate].
    apply setResultFromValue_query.
Qed.

Lemma iteration_query len i l c s :
  iteration len i l c = Return s -> query (clientOf s) = query c.
Proof.
  unfold iteration.
  destruct (if i =? len - 1 then _ else _) as [c1|] eqn:Hfin;
    cbn; [|discriminate].
  assert (Hc1 : query c1 = query c).
  { destruct (i =? len - 1).
    - eapply setFinalValue_query; eauto.
    - injection Hfin as <-. reflexivity. }
  destruct (index_at (parsedQuery c1) i) as [qt|]; cbn; [|discriminate].
  destruct (accessType qt).
  - destruct (negb _); [intros [= <-]; exact Hc1|].
    destruct (rangeChildren _ _ _ _) as [found l'].
    destruct (negb found); intros [= <-]; exact Hc1.
  - destruct (negb _); [intros [= <-]; exact Hc1|].
    destruct (index_at (Array_Children _) _) as [val|]; cbn; [|discriminate].
    destruct val as [o|a|lit|p|id]; try (intros [= <-]; exact Hc1).
    destruct (i =? len - 1); intros [= <-]; exact Hc1.
Qed.

Lemma forLoop_frame n : forall len i l c r c',
  forLoop n len i l c = Return (r, c') ->
  sameQuery c c' /\ query c' = query c.
Proof.
  induction n as [|n IH]; cbn; intros len i l c r c'.
  - intros [= <- <-]. split; [apply sameQuery_refl | reflexivity].
  - destruct (iteration len i l c) as [s|] eqn:Hit; cbn; [|discriminate].
    pose proof (iteration_sameQuery _ _ _ _ _ Hit) as Hs.
    pose proof (iteration_query _ _ _ _ _ Hit) as Hq.
    destruct s as [l1 c1|err c1]; cbn in Hq.
    + intros Hr. apply IH in Hr as [Hs' Hq'].
      split; [eapply sameQuery_trans; eauto | congruence].
    + intros [= <- <-]. auto.
Qed.

Lemma executeQuery_tokens c c' r :
  executeQuery c = Return (r, c') -> parsedQuery c' = parsedQuery c.
Proof.
  unfold executeQuery.
  destruct (RootValue (tree c)); cbn; [|discriminate].
  intros Hr. apply forLoop_frame in Hr as [(_ & _ & Hp) _]. exact Hp.
Qed.

(** X1.  Whatever [executeQuery] returns, an error or none, the client it
    hands back has the input, the tree, the query and the tokens it
    started with: only [result] and [resultValue] are ever written. *)
Theorem executeQuery_frame :
  forall (c c' : Client) (r : option error),
    executeQuery c = Return (r, c') ->
    input c' = input c /\ tree c' = tree c /\
    query c' = query c /\ parsedQuery c' = parsedQuery c.
Proof.
  intros c c' r. unfold executeQuery.
  destruct (RootValue (tree c)); cbn; [|discriminate].
  intros Hr. apply forLoop_frame in Hr as [(Hi & Ht & Hp) Hq]. auto.
Qed.

Lemma iteration_nonfinal_client len i l c s :
  (i =? len - 1) = false ->
  iteration len i l c = Return s -> clientOf s = c.
Proof.
  intros Hi. unfold iteration. rewrite Hi. cbn [bind].
  destruct (index_at (parsedQuery c) i) as [qt|]; cbn; [|discriminate].
  destruct (accessType qt).
  - destruct (negb _); [intros [= <-]; reflexivity|].
    destruct (rangeChildren _ _ _ _) as [found l'].
    destruct (negb found); intros [= <-]; reflexivity.
  - destruct (negb _); [intros [= <-]; reflexivity|].
    destruct (index_at (Array_Children _) _) as [val|]; cbn; [|discriminate].
    destruct val as [o|a|lit|p|id]; intros [= <-]; reflexivity.
Qed.

Lemma runTo_nonfinal_client k : forall len i l c s,
  i + Z.of_nat k < len ->
  runTo k len i l c = Return s -> clientOf s = c.
Proof.
  induction k as [|k IH]; cbn [runTo]; intros len i l c s Hk.
  - intros [= <-]. reflexivity.
  - destruct (iteration len i l c) as [s1|] eqn:Hit; cbn; [|discriminate].
    apply iteration_nonfinal_client in Hit; [|apply Z.eqb_neq; lia].
    destruct s1 as [l1 c1|err c1]; cbn in Hit; subst c1.
    + apply IH. lia.
    + intros [= <-]. reflexivity.
Qed.

(** X2.  [result] and [resultValue] are written on the final iteration
    only: when the loop starts an iteration, the final one included, the
    client is still the one [executeQuery] was called on. *)
Theorem client_untouched_before_final_iteration :
  forall (c0 : Client) (k : nat) (l : locals) (c : Client),
    atIteration c0 k l c ->
    (k < length (parsedQuery c0))%nat ->
    c = c0.
Proof.
  intros c0 k l c (rootVal & _ & Hrun) Hk.
  apply runTo_nonfinal_client in Hrun; [|lia]. exact Hrun.
Qed.

Lemma iteration_errors len i l c err c' :
  iteration len i l c = Return (Stop err c') ->
  executeError (parsedQuery c) err.
Proof.
  unfold iteration.
  destruct (if i =? len - 1 then _ else _) as [c1|] eqn:Hfin;
    cbn; [|discriminate].
  assert (Hpq : parsedQuery c1 = parsedQuery c).
  { destruct (i =? len - 1).
    - apply setFinalValue_sameQuery in Hfin as (_ & _ & Hp). exact Hp.
    - injection Hfin as <-. reflexivity. }
  destruct (index_at (parsedQuery c1) i) as [qt|] eqn:Hqt; cbn; [|discriminate].
  apply index_at_Return in Hqt as [_ Hqt]. rewrite Hpq in Hqt.
  apply list_elem_of_lookup_2 in Hqt.
  unfold executeError.
  destruct (accessType qt) eqn:Hacc.
  - destruct (negb _); [intros [= <- _]; auto|].
    destruct (rangeChildren _ _ _ _) as [found l'].
    destruct (negb found); [|discriminate].
    intros [= <- _]. right. right. right. exists qt. auto.
  - destruct (negb _); [intros [= <- _]; auto|].
    destruct (index_at (Array_Children _) _) as [val|]; cbn; [|discriminate].
    destruct val as [o|a|lit|p|id]; try discriminate.
    destruct (i =? len - 1); [discriminate|]. intros [= <- _]. auto.
Qed.

Lemma forLoop_errors n : forall len i l c err c',
  forLoop n len i l c = Return (Some err, c') ->
  executeError (parsedQuery c) err.
Proof.
  induction n as [|n IH]; cbn; intros len i l c err c'; [discriminate|].
  destruct (iteration len i l c) as [s|] eqn:Hit; cbn; [|discriminate].
  destruct s as [l1 c1|e c1].
  - apply iteration_sameQuery in Hit as (_ & _ & Hpq).
    intros Hr. apply IH in Hr. rewrite Hpq in Hr. exact Hr.
  - intros [= <- _]. eapply iteration_errors; eauto.
Qed.

(** X3.  The only errors [executeQuery] returns are the two kind
    mismatches, the error of a non-final literal under an array-index
    token, and the key-not-found error of the key of one of the query's
    object-key tokens. *)
Theorem executeQuery_errors :
  forall (c c' : Client) (err : error),
    executeQuery c = Return (Some err, c') ->
    executeError (parsedQuery c) err.
Proof.
  intros c c' err. unfold executeQuery.
  destruct (RootValue (tree c)); cbn; [|discriminate].
  apply forLoop_errors.
Qed.

Lemma index_at_lookup_Z {A} (l : list A) (i : Z) (x : A) :
  0 <= i -> l !! Z.to_nat i = Some x -> index_at l i = Return x.
Proof.
  intros Hi Hx. rewrite <- (Z2Nat.id i) by exact Hi.
  apply index_at_lookup. exact Hx.
Qed.

Lemma rangeChildren_first_match k children : forall found l p,
  firstWithKey k children = Some p ->
  (forall o, Property_Value p = VObject o ->
     rangeChildren k children found l = (true, mkLocals o (arr l) ObjectType)) /\
  (forall a, Property_Value p = VArray a ->
     rangeChildren k children found l = (true, mkLocals (obj l) a ArrayType)).
Proof.
  induction children as [|q rest IH]; intros found l p; cbn; [discriminate|].
  destruct (String.eqb _ k).
  - intros [= ->]. split; intros x ->; reflexivity.
  - apply IH.
Qed.

Lemma rangeChildren_found k children : forall found l,
  firstWithKey k children <> None ->
  fst (rangeChildren k children found l) = true.
Proof.
  induction children as [|p rest IH]; intros found l; cbn; [congruence|].
  destruct (String.eqb _ k) eqn:E; [|apply IH].
  intros _. destruct (Property_Value p); try reflexivity.
  all: destruct (firstWithKey k rest) eqn:Hrest;
    [apply IH; congruence
    | rewrite rangeChildren_not_found by exact Hrest; reflexivity].
Qed.

Lemma resolvesTo_array qt l v :
  accessType qt = ArrayAccess ->
  resolvesTo qt l = Some v ->
  index_at (Array_Children (arr l)) (index qt) = Return v.
Proof.
  intros Hacc. unfold resolvesTo. rewrite Hacc.
  destruct (index qt <? 0) eqn:Hneg; [discriminate|].
  apply Z.ltb_ge in Hneg. apply index_at_lookup_Z. exact Hneg.
Qed.

(** A non-final token of the cursor's kind that resolves to a container
    moves the cursor to it and leaves the client alone. *)
Lemma iteration_narrows len i l c qt l' :
  (i =? len - 1) = false ->
  index_at (parsedQuery c) i = Return qt ->
  Type_eqb (currentType l) (cursorFor qt) = true ->
  narrowsTo qt l = Some l' ->
  iteration len i l c = Return (Next l' c).
Proof.
  intros Hi Hqt Hcur Hnar. unfold iteration. rewrite Hi. cbn [bind].
  rewrite Hqt. cbn [bind]. apply Type_eqb_eq in Hcur.
  unfold narrowsTo in Hnar. unfold cursorFor in Hcur.
  destruct (resolvesTo qt l) as [v|] eqn:Hres; [|discriminate].
  destruct (accessType qt) eqn:Hacc.
  - rewrite Hcur. cbn [negb Type_eqb].
    unfold resolvesTo in Hres. rewrite Hacc in Hres.
    destruct (firstWithKey (key qt) (Object_Children (obj l))) as [p|] eqn:Hp;
      [|discriminate].
    injection Hres as <-.
    destruct (rangeChildren_first_match _ _ false l p Hp) as [Ho Ha].
    destruct (Property_Value p) as [o|a|lit|pp|id]; try discriminate.
    + rewrite (Ho o eq_refl). injection Hnar as <-. reflexivity.
    + rewrite (Ha a eq_refl). injection Hnar as <-. reflexivity.
  - rewrite Hcur. cbn [negb Type_eqb].
    rewrite (resolvesTo_array _ _ _ Hacc Hres). cbn [bind].
    destruct v as [o|a|lit|pp|id]; try discriminate;
      injection Hnar as <-; reflexivity.
Qed.

Lemma setResultFromValue_literal_again lit c c1 :
  setResultFromValue (VLiteral lit) c = Return c1 ->
  setResultFromValue (VLiteral lit) c1 = Return c1.
Proof. cbn. intros [= <-]. reflexivity. Qed.

(** The final token, of the cursor's kind and resolving to [v], stores
    [v] when its string form can be taken. *)
Lemma iteration_final_stores len i l c qt v c1 :
  (i =? len - 1) = true ->
  index_at (parsedQuery c) i = Return qt ->
  Type_eqb (currentType l) (cursorFor qt) = true ->
  resolvesTo qt l = Some v ->
  setResultFromValue v c = Return c1 ->
  exists l', iteration len i l c = Return (Next l' c1).
Proof.
  intros Hi Hqt Hcur Hres Hset. unfold iteration, setFinalValue.
  rewrite Hi, Hqt. cbn [bind].
  apply Type_eqb_eq in Hcur. unfold cursorFor in Hcur.
  pose proof (setResultFromValue_sameQuery _ _ _ Hset) as (_ & _ & Hpq).
  destruct (accessType qt) eqn:Hacc; rewrite Hcur; cbn [Type_eqb].
  - rewrite setFinalValue_range_first.
    unfold resolvesTo in Hres. rewrite Hacc in Hres.
    destruct (firstWithKey (key qt) (Object_Children (obj l))) as [p|] eqn:Hp;
      [|discriminate].
    injection Hres as <-. rewrite Hset. cbn [bind].
    rewrite Hpq, Hqt. cbn [bind]. rewrite Hacc. cbn [negb].
    pose proof (rangeChildren_found (key qt) (Object_Children (obj l)) false l
                  ltac:(congruence)) as Hf.
    destruct (rangeChildren _ _ _ _) as [found l2]. cbn in Hf. subst found.
    cbn [negb]. eauto.
  - rewrite (resolvesTo_array _ _ _ Hacc Hres). cbn [bind].
    rewrite Hset. cbn [bind]. rewrite Hpq, Hqt. cbn [bind].
    rewrite Hacc. cbn [negb].
    rewrite (resolvesTo_array _ _ _ Hacc Hres). cbn [bind].
    destruct v as [o|a|lit|pp|id]; eauto.
    rewrite (setResultFromValue_literal_again _ _ _ Hset). cbn [bind]. eauto.
Qed.

Lemma forLoop_firstMatchWalk (suf : list queryToken) :
  forall (pre : list queryToken) l c v c1,
  parsedQuery c = (pre ++ suf)%list ->
  firstMatchWalk l suf = Some v ->
  setResultFromValue v c = Return c1 ->
  forLoop (length suf) (Z.of_nat (length (parsedQuery c)))
          (Z.of_nat (length pre)) l c = Return (None, c1).
Proof.
  induction suf as [|qt rest IH]; intros pre l c v c1 Hpq Hwalk Hset;
    [discriminate|].
  cbn [firstMatchWalk] in Hwalk.
  destruct (Type_eqb (currentType l) (cursorFor qt)) eqn:Hcur; [|discriminate].
  assert (Hqt : index_at (parsedQuery c) (Z.of_nat (length pre)) = Return qt).
  { apply index_at_lookup. rewrite Hpq. apply list_lookup_middle. reflexivity. }
  assert (Hlen : length (parsedQuery c) = (length pre + S (length rest))%nat).
  { rewrite Hpq, length_app. reflexivity. }
  cbn [length forLoop].
  destruct rest as [|qt' rest'].
  - destruct (iteration_final_stores
                (Z.of_nat (length (parsedQuery c))) (Z.of_nat (length pre))
                l c qt v c1) as [l' ->]; auto.
    apply Z.eqb_eq. cbn in Hlen. lia.
  - destruct (narrowsTo qt l) as [l'|] eqn:Hnar; [|discriminate].
    assert (Hnf : (Z.of_nat (length pre)
                   =? Z.of_nat (length (parsedQuery c)) - 1) = false)
      by (apply Z.eqb_neq; cbn in Hlen; lia).
    rewrite (iteration_narrows _ _ _ _ _ _ Hnf Hqt Hcur Hnar).
    cbn [bind].
    replace (Z.of_nat (length pre) + 1)
      with (Z.of_nat (length (pre ++ [qt])%list))
      by (rewrite length_app; cbn; lia).
    apply (IH _ _ _ v); auto. rewrite Hpq, <- app_assoc. reflexivity.
Qed.

(** X4.  When following the tokens with first-match lookup succeeds
    (every token is of the kind of the cursor it meets and every token
    but the last resolves to an object or an array) and the string form
    of the value [v] it ends on can be taken, [executeQuery] returns no
    error and leaves [v] and its string form in the client. *)
Theorem executeQuery_firstMatchWalk :
  forall (c c1 : Client) (rootVal v : Value),
    RootValue (tree c) = Some rootVal ->
    firstMatchWalk (initialLocals rootVal) (parsedQuery c) = Some v ->
    setResultFromValue v c = Return c1 ->
    executeQuery c = Return (None, c1).
Proof.
  intros c c1 rootVal v Hroot Hwalk Hset. unfold executeQuery.
  rewrite Hroot. cbn [deref bind].
  apply (forLoop_firstMatchWalk (parsedQuery c) [] _ c v c1); auto.
Qed.

End ExecuteQueryFacts.

(* ===================================================================== *)
(** ** Which queries [validateQueryRoot] lets through *)
(* ===================================================================== *)
Section RootCheckFacts.
Import ast dora.

Lemma str_index_one_byte (c0 : ascii) :
  str_index (String c0 EmptyString) 1 = Panic (IndexOutOfRange 1 1).
Proof. reflexivity. Qed.

(** X5.  [validateQueryRoot] returns nil exactly on the queries that
    start with [$] followed by the selector of the root's shape: [.] for
    an object root, [[] for an array root. *)
Theorem validateQueryRoot_accepts :
  forall (query_ : string) (t : RootNodeType),
    validateQueryRoot query_ t = Return None <->
    exists rest : string,
      query_ = String "$" (String match t with
                                  | ObjectRoot => "."%char
                                  | ArrayRoot => "["%char
                                  end rest).
Proof.
  intros query_ t. split.
  - destruct query_ as [|c0 [|c1 rest]]; unfold validateQueryRoot.
    + cbn. discriminate.
    + rewrite str_index_first. cbn [bind].
      destruct (Ascii.eqb c0 "$"); cbn [negb]; [|discriminate].
      rewrite str_index_one_byte. discriminate.
    + rewrite str_index_first, str_index_second. cbn [bind].
      destruct (Ascii.eqb c0 "$") eqn:E0; cbn [negb]; [|discriminate].
      apply Ascii.eqb_eq in E0. subst c0.
      destruct t; cbn.
      * destruct (Ascii.eqb c1 ".") eqn:E1; cbn; [|discriminate].
        apply Ascii.eqb_eq in E1. subst c1. intros _. eauto.
      * destruct (Ascii.eqb c1 "[") eqn:E1; cbn; [|discriminate].
        apply Ascii.eqb_eq in E1. subst c1. intros _. eauto.
  - intros [rest ->]. unfold validateQueryRoot.
    rewrite str_index_first, str_index_second. destruct t; reflexivity.
Qed.

(** X6.  [validateQueryRoot] ends in a run-time panic exactly on the
    empty query and on the query [$]: every other query gets nil or one
    of the three root errors. *)
Theorem validateQueryRoot_panics_iff :
  forall (query_ : string) (t : RootNodeType),
    (exists p, validateQueryRoot query_ t = Panic p) <->
    query_ = EmptyString \/ query_ = "$".
Proof.
  intros query_ t. split.
  - intros [p Hp]. destruct query_ as [|c0 [|c1 rest]]; [auto| |].
    + unfold validateQueryRoot in Hp. rewrite str_index_first in Hp.
      cbn [bind] in Hp.
      destruct (Ascii.eqb c0 "$") eqn:E0; cbn [negb] in Hp; [|discriminate].
      apply Ascii.eqb_eq in E0. subst c0. auto.
    + exfalso. unfold validateQueryRoot in Hp.
      rewrite str_index_first, str_index_second in Hp. cbn [bind] in Hp.
      destruct (negb _); [discriminate|].
      destruct (_ && _); [discriminate|].
      destruct (_ && _); discriminate.
  - intros [-> | ->]; eexists; reflexivity.
Qed.

End RootCheckFacts.

(* ===================================================================== *)
(** ** [GoType] against query lookup; the byte/string conversions *)
(* ===================================================================== *)
Section GenericFacts.
Import ast dora.

Lemma lastWithKey_None k children :
  firstWithKey k children = None -> lastWithKey k children = None.
Proof.
  induction children as [|p rest IH]; cbn; [reflexivity|].
  unfold Identifier_String.
  destruct (String.eqb _ k); [discriminate|].
  intros Hr. rewrite (IH Hr). reflexivity.
Qed.

Lemma firstWithKey_Some_key k children p :
  firstWithKey k children = Some p ->
  Identifier_Value (Property_Key p) = k /\ p ∈ children.
Proof.
  induction children as [|q rest IH]; cbn; [discriminate|].
  destruct (String.eqb _ k) eqn:E.
  - intros [= ->]. apply String.eqb_eq in E. split; [exact E | left].
  - intros Hr. destruct (IH Hr). split; [assumption | right; assumption].
Qed.

Lemma lastWithKey_firstWithKey k children :
  NoDup (List.map (fun p : Property => Identifier_String (Property_Key p))
           children) ->
  lastWithKey k children = firstWithKey k children.
Proof.
  induction children as [|p rest IH]; cbn; [reflexivity|].
  intros Hnd. apply NoDup_cons in Hnd as [Hnotin Hnd].
  unfold Identifier_String in *.
  destruct (String.eqb (Identifier_Value (Property_Key p)) k) eqn:E.
  - apply String.eqb_eq in E.
    destruct (firstWithKey k rest) as [q|] eqn:Hq.
    + exfalso. apply Hnotin.
      apply firstWithKey_Some_key in Hq as [Hk Hin].
      apply list_elem_of_fmap. exists q. split; [congruence | exact Hin].
    + rewrite (lastWithKey_None _ _ Hq). reflexivity.
  - rewrite (IH Hnd). destruct (firstWithKey k rest); reflexivity.
Qed.

(** X7.  For an object whose properties have pairwise distinct keys, the
    map [GoType] builds binds every key to the [GoType] of the value an
    object-key lookup finds for it (the first property with that key),
    and has no entry for a key the lookup does not find. *)
Theorem GoType_agrees_with_lookup :
  forall (o : Object),
    NoDup (List.map (fun p : Property => Identifier_String (Property_Key p))
             (Object_Children o)) ->
    exists m : gmap string any,
      Value_GoType (VObject o) = AMap m /\
      forall k : string,
        m !! k =
        (fun p => Value_GoType (Property_Value p)) <$>
          firstWithKey k (Object_Children o).
Proof.
  intros o Hnd.
  destruct (Object_GoType_lookup o) as (m & Hm & Hlook).
  exists m. split; [exact Hm|]. intros k.
  rewrite Hlook, (lastWithKey_firstWithKey _ _ Hnd). reflexivity.
Qed.

End GenericFacts.

(* ===================================================================== *)
(** ** The typed accessors and package danger *)
(* ===================================================================== *)
Section AccessorFacts.
Import ast dora.
Context `{Fmt} `{Strconv}.
Variable scan : list byte -> exec (list queryToken * option error).

(** A query of at least one token that returns no error leaves a value
    and its string form in the client. *)
Lemma executeQuery_leaves_stringForm c0 c' :
  executeQuery c0 = Return (None, c') ->
  parsedQuery c0 <> [] ->
  exists v, resultValue c' = Some v /\ stringForm (input c0) v (result c').
Proof.
  intros Hex Hne.
  destruct (length (parsedQuery c0)) as [|k] eqn:Hlen.
  { destruct (parsedQuery c0); [congruence | discriminate]. }
  destruct (lookup_lt_is_Some_2 (parsedQuery c0) k ltac:(lia)) as [qt Hqt].
  unfold executeQuery in Hex.
  destruct (RootValue (tree c0)) as [rootVal|] eqn:Hroot; cbn in Hex;
    [|discriminate].
  rewrite Hlen in Hex. replace (S k) with (k + 1)%nat in Hex at 1 by lia.
  rewrite forLoop_runTo in Hex.
  destruct (runTo k _ 0 _ c0) as [[l c|err c]|] eqn:Hrun; cbn [bind] in Hex;
    try discriminate.
  destruct (runTo_sameQuery _ _ _ _ _ _ _ Hrun) as (Hin & _ & Hpq).
  cbn [forLoop] in Hex.
  destruct (iteration _ _ l c) as [[l1 c1|err c1]|] eqn:Hit; cbn [bind] in Hex;
    try discriminate.
  injection Hex as <-.
  assert (Hfin : (0 + Z.of_nat k =? Z.of_nat (S k) - 1) = true)
    by (apply Z.eqb_eq; lia).
  assert (Hidx : index_at (parsedQuery c) (0 + Z.of_nat k) = Return qt)
    by (rewrite Hpq, Z.add_0_l; apply index_at_lookup; exact Hqt).
  destruct (final_iteration_result _ _ _ _ _ _ _ Hfin Hidx Hit)
    as (v & _ & _ & Hrv & Hs).
  exists v. rewrite <- Hin. auto.
Qed.

Lemma prepAndExecQuery_success query_ c c' :
  prepAndExecQuery scan query_ c = Return (None, c') ->
  exists c1, executeQuery c1 = Return (None, c') /\ input c1 = input c.
Proof.
  unfold prepAndExecQuery, prepareQuery, parseQuery, setQuery.
  destruct (validateQueryRoot _ _) as [[e|]|]; cbn; try discriminate.
  destruct (danger.StringToBytes query_) as [bs|]; cbn; [|discriminate].
  destruct (scan bs) as [[tokens [e|]]|]; cbn; try discriminate.
  destruct (executeQuery _) as [[[e|] c2]|] eqn:Hex; cbn; try discriminate.
  intros [= <-]. eexists. split; [exact Hex | reflexivity].
Qed.

(** [GetBool] on a query that ends on a literal parses the literal's
    string form. *)
Lemma GetBool_of_literal query_ c c' lit :
  prepAndExecQuery scan query_ c = Return (None, c') ->
  parsedQuery c' <> [] ->
  resultValue c' = Some (VLiteral lit) ->
  GetBool scan query_ c =
  Return match strconv_ParseBool (Literal_String lit) with
         | (_, Some err) => (false, Some err, c')
         | (b, None) => (b, None, c')
         end.
Proof.
  intros Hpe Hne Hrv.
  destruct (prepAndExecQuery_success _ _ _ Hpe) as (c1 & Hex & _).
  pose proof (executeQuery_tokens _ _ _ Hex) as Hpq.
  destruct (executeQuery_leaves_stringForm _ _ Hex ltac:(congruence))
    as (v & Hv & Hs).
  rewrite Hrv in Hv. injection Hv as <-. apply (proj1 (stringForm_literal _ _ _)) in Hs.
  unfold GetBool, get. rewrite Hpe. cbn. rewrite Hs.
  destruct (strconv_ParseBool (Literal_String lit)) as [b [e|]]; reflexivity.
Qed.

(** X8.  A query of at least one token that ends on a boolean literal
    makes [GetBool] return that boolean and no error: the literal is
    rendered as [true] or [false] and [strconv.ParseBool] reads it
    back. *)
Theorem GetBool_of_bool_literal :
  forall (query_ : string) (c c' : Client) (lit : Literal) (b : bool),
    prepAndExecQuery scan query_ c = Return (None, c') ->
    parsedQuery c' <> [] ->
    resultValue c' = Some (VLiteral lit) ->
    Literal_Value lit = ABool b ->
    GetBool scan query_ c = Return (b, None, c').
Proof.
  intros query_ c c' lit b Hpe Hne Hrv Hb.
  rewrite (GetBool_of_literal _ _ _ _ Hpe Hne Hrv).
  unfold Literal_String. rewrite Hb. destruct b; reflexivity.
Qed.

(** X9.  [GetBool] does not look at the kind of the literal: on a query
    that ends on a string literal, it answers what [strconv.ParseBool]
    makes of the string, so a string spelled [1], [t], [T], [true],
    [TRUE] or [True] counts as true. *)
Theorem GetBool_of_string_literal :
  forall (query_ : string) (c c' : Client) (lit : Literal) (s : string),
    prepAndExecQuery scan query_ c = Return (None, c') ->
    parsedQuery c' <> [] ->
    resultValue c' = Some (VLiteral lit) ->
    Literal_Value lit = AString s ->
    In s ["1"; "t"; "T"; "true"; "TRUE"; "True"] ->
    GetBool scan query_ c = Return (true, None, c').
Proof.
  intros query_ c c' lit s Hpe Hne Hrv Hs Hin.
  rewrite (GetBool_of_literal _ _ _ _ Hpe Hne Hrv).
  unfold Literal_String. rewrite Hs.
  cbn in Hin. destruct Hin as [<-|[<-|[<-|[<-|[<-|[<-|[]]]]]]]; reflexivity.
Qed.

End AccessorFacts.

Section DangerFacts.

Lemma length_list_byte_of_string (s : string) :
  length (list_byte_of_string s) = String.length s.
Proof.
  unfold list_byte_of_string. rewrite length_map.
  induction s as [|a s IH]; cbn; [reflexivity | rewrite IH; reflexivity].
Qed.

(** X10.  On a string of at most [max] bytes, [StringToBytes] returns
    the bytes of the string and [BytesToString] takes them back to the
    string; on a slice of at most [max] bytes, [BytesToString] followed
    by [StringToBytes] returns the slice. *)
Theorem danger_round_trip :
  forall (s : string) (bytes : list byte),
    Z.of_nat (String.length s) <= danger.max ->
    Z.of_nat (length bytes) <= danger.max ->
    (exists bs, danger.StringToBytes s = Return bs /\
                danger.BytesToString bs = s) /\
    danger.StringToBytes (danger.BytesToString bytes) = Return bytes.
Proof.
  intros s bytes Hs Hb. split.
  - unfold danger.StringToBytes.
    destruct (Z.of_nat (String.length s) =? 0) eqn:E0.
    + exists []. split; [reflexivity|].
      apply Z.eqb_eq in E0. destruct s; [reflexivity | cbn in E0; lia].
    + replace (Z.of_nat (String.length s) >? danger.max) with false
        by (symmetry; rewrite Z.gtb_ltb; apply Z.ltb_ge; exact Hs).
      exists (list_byte_of_string s). split; [reflexivity|].
      unfold danger.BytesToString.
      rewrite length_list_byte_of_string, E0.
      apply string_of_list_byte_of_string.
  - unfold danger.BytesToString.
    destruct (Z.of_nat (length bytes) =? 0) eqn:E0.
    + apply Z.eqb_eq in E0. destruct bytes; [reflexivity | cbn in E0; lia].
    + unfold danger.StringToBytes.
      rewrite <- length_list_byte_of_string,
        list_byte_of_string_of_list_byte, E0.
      replace (Z.of_nat (length bytes) >? danger.max) with false
        by (symmetry; rewrite Z.gtb_ltb; apply Z.ltb_ge; exact Hb).
      reflexivity.
Qed.

End DangerFacts.

(* ===================================================================== *)
(** ** package merge *)
(* ===================================================================== *)
Section MergeFacts.
Import ast2 ast2nodes merge.

Lemma stripWhiteSpace_returns_nil (items : list StructuralItem) :
  stripWhiteSpace items = Return [].
Proof.
  unfold stripWhiteSpace.
  destruct (stripWhiteSpace_for_returns items (length items)) as [i ->];
    [lia|].
  cbn. apply slice_empty_prefix.
Qed.

Lemma sameEntry_refl p : sameEntry p p.
Proof.
  exists (Property_HasCommaSeparator p),
         (Value_SuffixStructure (Property_Value p)).
  destruct p as [t k [pre c suf] comma]. reflexivity.
Qed.

Lemma sameEntry_trans p1 p2 p3 :
  sameEntry p1 p2 -> sameEntry p2 p3 -> sameEntry p1 p3.
Proof.
  intros (c1 & s1 & ->) (c2 & s2 & ->). exists c2, s2.
  destruct p1 as [t k [pre c suf] comma]. reflexivity.
Qed.

Lemma sameEntry_key p p' :
  sameEntry p p' ->
  Identifier_Value (Property_Key p') = Identifier_Value (Property_Key p).
Proof. intros (c & s & ->). destruct p. reflexivity. Qed.

Lemma sameEntry_keysOf ch ch' :
  Forall2 sameEntry ch ch' -> keysOf ch' = keysOf ch.
Proof.
  induction 1 as [|p p' ch ch' Hp _ IH]; [reflexivity|].
  unfold keysOf in *. cbn. rewrite (sameEntry_key _ _ Hp), IH. reflexivity.
Qed.

Lemma keysOf_app ch1 ch2 : keysOf (ch1 ++ ch2) = (keysOf ch1 ++ keysOf ch2)%list.
Proof. unfold keysOf. apply map_app. Qed.

Lemma getChildByKey_range_None children k :
  getChildByKey_range children k = None <-> k ∉ keysOf children.
Proof.
  induction children as [|p rest IH]; cbn.
  - split; [intros _; apply not_elem_of_nil | reflexivity].
  - destruct (String.eqb _ k) eqn:E.
    + apply String.eqb_eq in E. split; [discriminate|].
      intros Hn. exfalso. apply Hn. rewrite E. left.
    + apply String.eqb_neq in E. rewrite IH. rewrite not_elem_of_cons.
      split; [auto | tauto].
Qed.

Lemma getChildByKey_range_sameEntry ch ch' :
  Forall2 sameEntry ch ch' ->
  forall added k p,
    getChildByKey_range ch k = Some p ->
    exists p', getChildByKey_range (ch' ++ added) k = Some p' /\
               sameEntry p p'.
Proof.
  induction 1 as [|q q' ch ch' Hq _ IH]; intros added k p; cbn;
    [discriminate|].
  rewrite (sameEntry_key _ _ Hq).
  destruct (String.eqb _ k).
  - intros [= <-]. eauto.
  - apply IH.
Qed.

(** What one append does to the children of the base. *)
Lemma appendChild_step mergeSuffix mergeChild baseContent init last :
  Object_Children baseContent = (init ++ [last])%list ->
  exists b' last',
    appendChild mergeSuffix mergeChild baseContent = Return b' /\
    Object_Children b' = (init ++ [last'; mergeChild])%list /\
    sameEntry last last' /\
    Property_HasCommaSeparator last' = true.
Proof.
  intros Hch. unfold appendChild.
  assert (Hidx : Z.of_nat (length (Object_Children baseContent)) - 1
                 = Z.of_nat (length init)).
  { rewrite Hch, length_app. cbn. lia. }
  rewrite Hidx.
  assert (Hlast : forall x : Property,
             index_at (init ++ [x]) (Z.of_nat (length init)) = Return x).
  { intros x. apply index_at_lookup. apply list_lookup_middle. reflexivity. }
  assert (Hupd : forall (x : Property) f,
             update_at (init ++ [x]) (Z.of_nat (length init)) f
             = Return (init ++ [f x])%list).
  { intros x f. unfold update_at. rewrite Hlast. cbn [bind].
    rewrite Nat2Z.id, insert_app_r_alt by lia.
    rewrite Nat.sub_diag. reflexivity. }
  rewrite Hch, Hlast. cbn [bind].
  destruct baseContent as [t ch s e suf b]. cbn in Hch. subst ch.
  destruct (Property_HasCommaSeparator last) eqn:Hcomma.
  - rewrite stripWhiteSpace_returns_nil. cbn.
    exists (mkObject t (init ++ [last] ++ [mergeChild]) s e mergeSuffix b), last.
    rewrite <- app_assoc. repeat split; auto. apply sameEntry_refl.
  - cbn [Object_Children Object_set_Children]. rewrite Hupd. cbn [bind].
    rewrite Hlast. cbn [bind]. rewrite stripWhiteSpace_returns_nil.
    cbn [bind]. rewrite Hupd. cbn [bind].
    set (last' := Property_set_Value _ _).
    assert (Hs : sameEntry last last').
    { exists true, []. subst last'. destruct last as [t0 k [pre c suf0] cm].
      reflexivity. }
    assert (Hc : Property_HasCommaSeparator last' = true).
    { subst last'. destruct last as [t0 k [pre c suf0] cm]. reflexivity. }
    destruct (Property_HasCommaSeparator mergeChild).
    + rewrite stripWhiteSpace_returns_nil. cbn.
      eexists _, last'. rewrite <- app_assoc. repeat split; auto.
    + cbn. eexists _, last'. rewrite <- app_assoc. repeat split; auto.
Qed.

Lemma appendChild_Return_nonempty mergeSuffix mergeChild baseContent b' :
  appendChild mergeSuffix mergeChild baseContent = Return b' ->
  Object_Children baseContent <> [].
Proof.
  unfold appendChild.
  destruct (index_at _ _) as [x|] eqn:Hx; [|discriminate].
  intros _ Hnil. apply index_at_Return in Hx as [Hr _].
  rewrite Hnil in Hr. cbn in Hr. lia.
Qed.

Lemma commasBetween_step init last last' mergeChild :
  commasBetween (init ++ [last]) ->
  Property_HasCommaSeparator last' = true ->
  commasBetween (init ++ [last'; mergeChild]).
Proof.
  intros Hc Hl i p Hlook Hlt. rewrite length_app in Hlt. cbn in Hlt.
  destruct (Nat.lt_ge_cases i (length init)) as [Hi|Hi].
  - rewrite lookup_app_l in Hlook by exact Hi.
    apply (Hc i p).
    + rewrite lookup_app_l by exact Hi. exact Hlook.
    + rewrite length_app. cbn. lia.
  - assert (i = length init) by lia. subst i.
    rewrite (list_lookup_middle init [mergeChild] last') in Hlook
      by reflexivity.
    injection Hlook as <-. exact Hl.
Qed.

Lemma getChildByKey_range_Some_elem children k p :
  getChildByKey_range children k = Some p -> k ∈ keysOf children.
Proof.
  intros Hp. destruct (decide (k ∈ keysOf children)) as [Hin|Hn]; [exact Hin|].
  apply getChildByKey_range_None in Hn. congruence.
Qed.

Lemma mergeValueContent_range_invariant mergeSuffix mergeChildren :
  forall base r,
    mergeValueContent_range mergeSuffix mergeChildren base = Return r ->
    mergeInvariant base mergeChildren r.
Proof.
  induction mergeChildren as [|mc rest IH]; intros base r; cbn.
  - intros [= <-]. repeat split; auto.
    + exists (Object_Children base), []. rewrite app_nil_r.
      split; [reflexivity|]. apply Forall2_same_length_lookup_2; [reflexivity|].
      intros i x y Hx Hy. rewrite Hx in Hy. injection Hy as <-.
      apply sameEntry_refl.
    + intros [Hk|Hk]; [exact Hk|]. apply elem_of_nil in Hk. destruct Hk.
  - unfold getChildByKey.
    destruct (getChildByKey_range (Object_Children base) _) as [found|] eqn:Hget.
    + intros Hr. destruct (IH _ _ Hr) as (Hgrow & Hkeys & Hnd & Hcm).
      apply getChildByKey_range_Some_elem in Hget.
      repeat split; auto.
      * intros Hk. apply Hkeys in Hk as [Hk|Hk]; [auto|].
        right. right. exact Hk.
      * intros [Hk|Hk]; [apply Hkeys; auto|].
        apply elem_of_cons in Hk as [-> | Hk]; apply Hkeys; auto.
    + destruct (appendChild mergeSuffix mc base) as [b'|] eqn:Happ;
        cbn [bind]; [|discriminate].
      intros Hr.
      pose proof (appendChild_Return_nonempty _ _ _ _ Happ) as Hne.
      destruct (exists_last Hne) as (init & last & Hch).
      destruct (appendChild_step mergeSuffix mc base init last Hch)
        as (b'' & last' & Happ' & Hch' & Hsame & Hcomma).
      rewrite Happ in Happ'. injection Happ' as <-.
      destruct (IH _ _ Hr) as ((old' & added & Hr' & Hf) & Hkeys & Hnd & Hcm).
      apply getChildByKey_range_None in Hget.
      assert (Hk' : keysOf (Object_Children b') =
                    (keysOf (Object_Children base) ++
                     [Identifier_Value (Property_Key mc)])%list).
      { rewrite Hch', Hch, !keysOf_app. cbn.
        rewrite (sameEntry_key _ _ Hsame), <- app_assoc. reflexivity. }
      repeat split.
      * rewrite Hch' in Hf. apply Forall2_app_inv_l in Hf
          as (o1 & o2 & Hf1 & Hf2 & ->).
        inversion Hf2 as [|x1 y1 t1 t1' Hx Ht1]; subst.
        inversion Ht1 as [|x2 y2 t2 t2' Hy Ht2]; subst.
        inversion Ht2; subst.
        exists (o1 ++ [y1])%list, (y2 :: added). split.
        -- rewrite Hr', <- !app_assoc. reflexivity.
        -- rewrite Hch. apply Forall2_app; [exact Hf1|].
           constructor; [|constructor]. eapply sameEntry_trans; eauto.
      * intros Hk. apply Hkeys in Hk as [Hk|Hk].
        -- rewrite Hk' in Hk. apply elem_of_app in Hk as [Hk|Hk]; [auto|].
           apply list_elem_of_singleton in Hk. subst k. right. left.
        -- right. right. exact Hk.
      * intros [Hk|Hk].
        -- apply Hkeys. left. rewrite Hk'. apply elem_of_app. auto.
        -- apply elem_of_cons in Hk as [-> | Hk]; apply Hkeys; [|auto].
           left. rewrite Hk'. apply elem_of_app. right. left.
      * intros Hbase. apply Hnd. rewrite Hk'.
        apply NoDup_app. repeat split; [exact Hbase| |apply NoDup_singleton].
        intros x Hx Hx'. apply list_elem_of_singleton in Hx'. subst x.
        exact (Hget Hx).
      * intros Hbase. apply Hcm. rewrite Hch'. rewrite Hch in Hbase.
        eapply commasBetween_step; eauto.
Qed.

Lemma mergeValueContent_range_returns mergeSuffix mergeChildren :
  forall base,
    Object_Children base <> [] ->
    exists r, mergeValueContent_range mergeSuffix mergeChildren base = Return r.
Proof.
  induction mergeChildren as [|mc rest IH]; intros base Hne; cbn; [eauto|].
  destruct (getChildByKey base _); [apply IH; exact Hne|].
  destruct (exists_last Hne) as (init & last & Hch).
  destruct (appendChild_step mergeSuffix mc base init last Hch)
    as (b' & last' & -> & Hch' & _ & _).
  cbn [bind]. apply IH. rewrite Hch'. destruct init; discriminate.
Qed.

Lemma mergeValueContent_range_noop mergeSuffix mergeChildren :
  forall base,
    (forall k, k ∈ keysOf mergeChildren -> k ∈ keysOf (Object_Children base)) ->
    mergeValueContent_range mergeSuffix mergeChildren base = Return base.
Proof.
  induction mergeChildren as [|mc rest IH]; intros base Hin; cbn;
    [reflexivity|].
  unfold getChildByKey.
  destruct (getChildByKey_range (Object_Children base) _) as [p|] eqn:Hget.
  - apply IH. intros k Hk. apply Hin. right. exact Hk.
  - exfalso. apply getChildByKey_range_None in Hget. apply Hget, Hin. left.
Qed.

Context `{Strconv}.

(** X11.  [mergeValueContent] returns an error, and with it the nil
    content, exactly when the two contents are not both objects. *)
Theorem mergeValueContent_error_iff :
  forall (baseValue mergeValue : ValueContent) (currentPath : string),
    (exists err,
        mergeValueContent baseValue mergeValue currentPath =
        Return (CNil, Some err)) <->
    ~ (exists bo mo, baseValue = CObject bo /\ mergeValue = CObject mo).
Proof.
  intros baseValue mergeValue currentPath. split.
  - intros [err Herr] (bo & mo & -> & ->). cbn in Herr.
    destruct (mergeValueContent_range _ _ _); discriminate.
  - intros Hn. destruct baseValue as [bo| | | | |];
      try (eexists; reflexivity).
    destruct mergeValue as [mo| | | | |]; try (eexists; reflexivity).
    exfalso. apply Hn. eauto.
Qed.

(** X12.  Merging into a base object that has no property a merge
    object that has one ends in a run-time panic: the index of the last
    child of the base is [-1]. *)
Theorem MergeJSON_empty_base_panics :
  forall (baseDocument mergeDocument : RootNode) (bv mv : ast2nodes.Value)
         (bo mo : Object),
    RootValue baseDocument = Some bv ->
    RootValue mergeDocument = Some mv ->
    Value_Content bv = CObject bo ->
    Value_Content mv = CObject mo ->
    Object_Children bo = [] ->
    Object_Children mo <> [] ->
    MergeJSON baseDocument mergeDocument = Panic (IndexOutOfRange (-1) 0).
Proof.
  intros baseDocument mergeDocument bv mv bo mo Hb Hm Hbc Hmc He Hne.
  unfold MergeJSON. rewrite Hb, Hm. cbn [deref bind]. rewrite Hbc, Hmc.
  cbn [mergeValueContent].
  destruct (Object_Children mo) as [|mc rest]; [congruence|].
  cbn [mergeValueContent_range]. unfold getChildByKey, appendChild.
  rewrite He. reflexivity.
Qed.

(** X13.  When every key of the merge object is already a key of the
    base object, [MergeJSON] returns the base document as it is: the
    properties of the merge document are dropped, whatever they hold. *)
Theorem MergeJSON_known_keys_noop :
  forall (baseDocument mergeDocument : RootNode) (bv mv : ast2nodes.Value)
         (bo mo : Object),
    RootValue baseDocument = Some bv ->
    RootValue mergeDocument = Some mv ->
    Value_Content bv = CObject bo ->
    Value_Content mv = CObject mo ->
    (forall k, k ∈ keysOf (Object_Children mo) ->
               k ∈ keysOf (Object_Children bo)) ->
    MergeJSON baseDocument mergeDocument = Return (Some baseDocument, None).
Proof.
  intros baseDocument mergeDocument bv mv bo mo Hb Hm Hbc Hmc Hin.
  unfold MergeJSON. rewrite Hb, Hm. cbn [deref bind]. rewrite Hbc, Hmc.
  cbn [mergeValueContent].
  rewrite (mergeValueContent_range_noop _ _ _ Hin). cbn.
  destruct baseDocument as [rv t]. cbn in Hb. subst rv.
  destruct bv as [pre c suf]. cbn in Hbc. subst c. reflexivity.
Qed.

(** X14.  On a base object with at least one property, merging an
    object returns an object and no error, and the keys of the result
    are the keys of the base together with the keys of the merge
    object. *)
Theorem mergeValueContent_keys :
  forall (bo mo : Object) (currentPath : string),
    Object_Children bo <> [] ->
    exists r : Object,
      mergeValueContent (CObject bo) (CObject mo) currentPath =
        Return (CObject r, None) /\
      forall k, k ∈ keysOf (Object_Children r) <->
                k ∈ keysOf (Object_Children bo) \/
                k ∈ keysOf (Object_Children mo).
Proof.
  intros bo mo currentPath Hne. cbn [mergeValueContent].
  destruct (mergeValueContent_range_returns
              (Object_SuffixStructure mo) (Object_Children mo) bo Hne)
    as [r Hr].
  exists r. rewrite Hr. split; [reflexivity|].
  apply (mergeValueContent_range_invariant _ _ _ _ Hr).
Qed.

Lemma mergeValueContent_Return bo mo currentPath c e :
  mergeValueContent (CObject bo) (CObject mo) currentPath = Return (c, e) ->
  exists r, c = CObject r /\
            mergeInvariant bo (Object_Children mo) r.
Proof.
  cbn [mergeValueContent].
  destruct (mergeValueContent_range _ _ _) as [r|] eqn:Hr; cbn;
    [|discriminate].
  intros [= <- _]. exists r. split; [reflexivity|].
  apply (mergeValueContent_range_invariant _ _ _ _ Hr).
Qed.

(** X15.  The merge never introduces a duplicate key: when the keys of
    the base object are pairwise distinct, so are the keys of the object
    it returns, also when the merge object repeats a key. *)
Theorem mergeValueContent_keeps_keys_distinct :
  forall (bo mo r : Object) (currentPath : string) (e : option error),
    mergeValueContent (CObject bo) (CObject mo) currentPath =
      Return (CObject r, e) ->
    NoDup (keysOf (Object_Children bo)) ->
    NoDup (keysOf (Object_Children r)).
Proof.
  intros bo mo r currentPath e Hm.
  apply mergeValueContent_Return in Hm as (r' & [= <-] & _ & _ & Hnd & _).
  exact Hnd.
Qed.

(** X16.  The base wins: a key the base object has is found in the
    result at a property with the same key and the same value as in the
    base, up to its comma flag and the suffix structure of its value;
    what the merge object holds under that key is not taken. *)
Theorem mergeValueContent_base_wins :
  forall (bo mo r : Object) (currentPath : string) (e : option error)
         (k : string) (p : Property),
    mergeValueContent (CObject bo) (CObject mo) currentPath =
      Return (CObject r, e) ->
    getChildByKey bo k = Some p ->
    exists p', getChildByKey r k = Some p' /\ sameEntry p p'.
Proof.
  intros bo mo r currentPath e k p Hm Hget.
  apply mergeValueContent_Return in Hm
    as (r' & [= <-] & (old' & added & Hr & Hf) & _).
  unfold getChildByKey in *. rewrite Hr.
  eapply getChildByKey_range_sameEntry; eauto.
Qed.

(** X17.  The merge keeps the commas between properties: when every
    property of the base object but the last has its comma flag set, so
    has every property but the last of the object it returns. *)
Theorem mergeValueContent_keeps_commas :
  forall (bo mo r : Object) (currentPath : string) (e : option error),
    mergeValueContent (CObject bo) (CObject mo) currentPath =
      Return (CObject r, e) ->
    commasBetween (Object_Children bo) ->
    commasBetween (Object_Children r).
Proof.
  intros bo mo r currentPath e Hm.
  apply mergeValueContent_Return in Hm as (r' & [= <-] & _ & _ & _ & Hc).
  exact Hc.
Qed.

End MergeFacts.

(* ===================================================================== *)
(** ** The loop of [stripWhiteSpace] *)
(* ===================================================================== *)
Section StripLoopFacts.
Import ast2 merge.

Lemma stripWhiteSpace_for_last (items : list StructuralItem) (k : nat) :
  (k <= length items)%nat ->
  exists i : Z,
    stripWhiteSpace_for items k = Return i /\
    -1 <= i < Z.of_nat k /\
    (forall (j : nat) (item : StructuralItem),
        i < Z.of_nat j -> (j < k)%nat -> items !! j = Some item ->
        ItemType item = WhitespaceStructuralItemType) /\
    (0 <= i ->
     exists item, items !! Z.to_nat i = Some item /\
                  ItemType item <> WhitespaceStructuralItemType).
Proof.
  induction k as [|k IH]; intros Hk; cbn [stripWhiteSpace_for].
  - exists (-1). split; [reflexivity|]. split; [lia|]. split; [|lia].
    intros j item _ Hj. lia.
  - destruct (lookup_lt_is_Some_2 items k ltac:(lia)) as [item Hitem].
    rewrite (index_at_lookup _ _ _ Hitem). cbn [bind].
    destruct (StructuralItemType_eqb (ItemType item)
                WhitespaceStructuralItemType) eqn:E; cbn [negb].
    + destruct (IH ltac:(lia)) as (i & Hi & Hr & Hws & Hnw).
      exists i. split; [exact Hi|]. split; [lia|]. split; [|exact Hnw].
      intros j item' Hij Hj Hl.
      destruct (Nat.eq_dec j k) as [->|Hne].
      * rewrite Hitem in Hl. injection Hl as <-.
        destruct (ItemType item); [reflexivity | discriminate | discriminate].
      * apply (Hws j item'); [exact Hij | lia | exact Hl].
    + exists (Z.of_nat k). split; [reflexivity|]. split; [lia|]. split.
      * intros j item' Hij Hj. lia.
      * intros _. exists item. rewrite Nat2Z.id. split; [exact Hitem|].
        intros Hw. rewrite Hw in E. discriminate.
Qed.

(** X18.  The loop of [stripWhiteSpace] does find what its variable is
    named after: it returns, and its own variable ends on the index of
    the last item that is not white space, every item after that index
    being white space, or on [-1] when every item is white space. *)
Theorem stripWhiteSpace_for_finds_last_non_whitespace :
  forall items : list StructuralItem,
    exists i : Z,
      stripWhiteSpace_for items (length items) = Return i /\
      -1 <= i < Z.of_nat (length items) /\
      (forall (j : nat) (item : StructuralItem),
          i < Z.of_nat j -> items !! j = Some item ->
          ItemType item = WhitespaceStructuralItemType) /\
      (0 <= i ->
       exists item, items !! Z.to_nat i = Some item /\
                    ItemType item <> WhitespaceStructuralItemType).
Proof.
  intros items.
  destruct (stripWhiteSpace_for_last items (length items) ltac:(lia))
    as (i & Hi & Hr & Hws & Hnw).
  exists i. repeat split; try lia; auto.
  intros j item Hij Hl. apply (Hws j item Hij); [|exact Hl].
  eapply lookup_lt_Some; eauto.
Qed.

End StripLoopFacts.

(* ===================================================================== *)
(** ** The statements of the last sections on the example documents *)
(* ===================================================================== *)
Section MoreScenarios.
Import ast dora Examples.

Lemma executeQuery_frame_witness :
  input (set_result ("[" +:+ q "some" +:+ "," +:+ q "values" +:+ "]")
           (set_resultValue (VArray someArray)
              (readme [objectAccess "someArray"]))) =
    input (readme [objectAccess "someArray"]) /\
  tree (set_result ("[" +:+ q "some" +:+ "," +:+ q "values" +:+ "]")
          (set_resultValue (VArray someArray)
             (readme [objectAccess "someArray"]))) =
    tree (readme [objectAccess "someArray"]) /\
  query (set_result ("[" +:+ q "some" +:+ "," +:+ q "values" +:+ "]")
           (set_resultValue (VArray someArray)
              (readme [objectAccess "someArray"]))) =
    query (readme [objectAccess "someArray"]) /\
  parsedQuery (set_result ("[" +:+ q "some" +:+ "," +:+ q "values" +:+ "]")
                 (set_resultValue (VArray someArray)
                    (readme [objectAccess "someArray"]))) =
    parsedQuery (readme [objectAccess "someArray"]).
Proof.
  apply (@executeQuery_frame fmtNotCalled
           (readme [objectAccess "someArray"]) _ None).
  vm_compute. reflexivity.
Defined.

Lemma client_untouched_before_final_iteration_witness :
  readme [objectAccess "someArray"; arrayAccess 1] =
  readme [objectAccess "someArray"; arrayAccess 1].
Proof.
  apply (@client_untouched_before_final_iteration fmtNotCalled
           (readme [objectAccess "someArray"; arrayAccess 1]) 1%nat
           (mkLocals readmeRoot someArray ArrayType)
           (readme [objectAccess "someArray"; arrayAccess 1])).
  - exists (VObject readmeRoot). split; reflexivity.
  - cbn. lia.
Defined.

Lemma executeQuery_errors_witness :
  executeError (parsedQuery (readme [arrayAccess 0; objectAccess "x"]))
    errAskedArrayFoundObject.
Proof.
  apply (@executeQuery_errors fmtNotCalled
           (readme [arrayAccess 0; objectAccess "x"])
           (readme [arrayAccess 0; objectAccess "x"])
           errAskedArrayFoundObject).
  vm_compute. reflexivity.
Defined.

Lemma executeQuery_firstMatchWalk_witness :
  @executeQuery fmtNotCalled
    (readme [objectAccess "someArray"; arrayAccess 1]) =
  Return (None,
          set_result "values"
            (set_resultValue (str "values")
               (readme [objectAccess "someArray"; arrayAccess 1]))).
Proof.
  apply (@executeQuery_firstMatchWalk fmtNotCalled
           (readme [objectAccess "someArray"; arrayAccess 1]) _
           (VObject readmeRoot) (str "values")).
  - reflexivity.
  - reflexivity.
  - reflexivity.
Defined.

Lemma validateQueryRoot_accepts_witness :
  validateQueryRoot "$.name" ObjectRoot = Return None.
Proof.
  apply (proj2 (validateQueryRoot_accepts "$.name" ObjectRoot)).
  exists "name". reflexivity.
Defined.

Lemma validateQueryRoot_panics_iff_witness :
  exists p, validateQueryRoot "$" ArrayRoot = Panic p.
Proof.
  apply (proj2 (validateQueryRoot_panics_iff "$" ArrayRoot)).
  right. reflexivity.
Defined.

Lemma GoType_agrees_with_lookup_witness :
  exists m : gmap string any,
    Value_GoType (VObject readmeRoot) = AMap m /\
    forall k : string,
      m !! k =
      (fun p => Value_GoType (Property_Value p)) <$>
        firstWithKey k (Object_Children readmeRoot).
Proof.
  apply (GoType_agrees_with_lookup readmeRoot).
  cbn. apply NoDup_cons. split.
  - intros Hin. apply list_elem_of_singleton in Hin. discriminate.
  - apply NoDup_singleton.
Defined.

Lemma GetBool_of_bool_literal_witness :
  @GetBool fmtNotCalled (scanAs [objectAccess "someBool"]) strconvNotCalled
    "$.someBool" flags =
  Return (true, None,
          set_result "true"
            (set_resultValue (VLiteral (mkLiteral LiteralType (ABool true)))
               (set_parsedQuery [objectAccess "someBool"]
                  (set_query (list_byte_of_string "$.someBool") flags)))).
Proof.
  apply (@GetBool_of_bool_literal fmtNotCalled strconvNotCalled
           (scanAs [objectAccess "someBool"]) "$.someBool" flags _
           (mkLiteral LiteralType (ABool true)) true).
  - vm_compute. reflexivity.
  - discriminate.
  - reflexivity.
  - reflexivity.
Defined.

Lemma GetBool_of_string_literal_witness :
  @GetBool fmtNotCalled (scanAs [objectAccess "t"]) strconvNotCalled
    "$.t" flags =
  Return (true, None,
          set_result "T"
            (set_resultValue (str "T")
               (set_parsedQuery [objectAccess "t"]
                  (set_query (list_byte_of_string "$.t") flags)))).
Proof.
  apply (@GetBool_of_string_literal fmtNotCalled strconvNotCalled
           (scanAs [objectAccess "t"]) "$.t" flags _
           (mkLiteral LiteralType (AString "T")) "T").
  - vm_compute. reflexivity.
  - discriminate.
  - reflexivity.
  - reflexivity.
  - cbn. auto.
Defined.

Lemma danger_round_trip_witness :
  (exists bs, danger.StringToBytes "$.name" = Return bs /\
              danger.BytesToString bs = "$.name") /\
  danger.StringToBytes (danger.BytesToString readmeBuf) = Return readmeBuf.
Proof.
  apply (danger_round_trip "$.name" readmeBuf).
  - vm_compute. discriminate.
  - vm_compute. discriminate.
Defined.

End MoreScenarios.

Section MergeScenarios.
Import ast2 ast2nodes merge MergeExamples.

Lemma mergeValueContent_error_iff_witness :
  exists err,
    @mergeValueContent Examples.strconvNotCalled
      (CObject baseAB) (CArray (mkArray ArrayType [] [] [] 0 0 None)) "$" =
    Return (CNil, Some err).
Proof.
  apply (proj2 (@mergeValueContent_error_iff Examples.strconvNotCalled
                  (CObject baseAB)
                  (CArray (mkArray ArrayType [] [] [] 0 0 None)) "$")).
  intros (bo & mo & _ & Hm). discriminate.
Defined.

Lemma MergeJSON_empty_base_panics_witness :
  @MergeJSON Examples.strconvNotCalled (document noMembers) (document mergeBC)
  = Panic (IndexOutOfRange (-1) 0).
Proof.
  apply (@MergeJSON_empty_base_panics Examples.strconvNotCalled
           (document noMembers) (document mergeBC)
           (mkValue [] (CObject noMembers) [])
           (mkValue [] (CObject mergeBC) []) noMembers mergeBC);
    try reflexivity.
  discriminate.
Defined.

Lemma MergeJSON_known_keys_noop_witness :
  @MergeJSON Examples.strconvNotCalled (document mergedABC) (document mergeBC)
  = Return (Some (document mergedABC), None).
Proof.
  apply (@MergeJSON_known_keys_noop Examples.strconvNotCalled
           (document mergedABC) (document mergeBC)
           (mkValue [] (CObject mergedABC) [])
           (mkValue [] (CObject mergeBC) []) mergedABC mergeBC);
    try reflexivity.
  intros k Hk. cbn in Hk |- *.
  apply elem_of_cons in Hk as [-> | Hk]; [right; left|].
  apply list_elem_of_singleton in Hk as ->. right. right. left.
Defined.

Lemma mergeValueContent_keys_witness :
  exists r : Object,
    @mergeValueContent Examples.strconvNotCalled
      (CObject baseAB) (CObject mergeBC) "$" = Return (CObject r, None) /\
    forall k, k ∈ keysOf (Object_Children r) <->
              k ∈ keysOf (Object_Children baseAB) \/
              k ∈ keysOf (Object_Children mergeBC).
Proof.
  apply (@mergeValueContent_keys Examples.strconvNotCalled baseAB mergeBC "$").
  discriminate.
Defined.

Lemma mergeValueContent_keeps_keys_distinct_witness :
  NoDup (keysOf (Object_Children mergedABC)).
Proof.
  apply (@mergeValueContent_keeps_keys_distinct Examples.strconvNotCalled
           baseAB mergeBC mergedABC "$" None).
  - reflexivity.
  - cbn. apply NoDup_cons. split.
    + intros Hin. apply list_elem_of_singleton in Hin. discriminate.
    + apply NoDup_singleton.
Defined.

Lemma mergeValueContent_base_wins_witness :
  exists p', getChildByKey mergedABC "b" = Some p' /\
             sameEntry (member "b" "2" false) p'.
Proof.
  apply (@mergeValueContent_base_wins Examples.strconvNotCalled
           baseAB mergeBC mergedABC "$" None "b" (member "b" "2" false));
    reflexivity.
Defined.

Lemma mergeValueContent_keeps_commas_witness :
  commasBetween (Object_Children mergedABC).
Proof.
  apply (@mergeValueContent_keeps_commas Examples.strconvNotCalled
           baseAB mergeBC mergedABC "$" None).
  - reflexivity.
  - intros i p Hlook Hlt. cbn in Hlt.
    destruct i as [|i]; [|lia].
    cbn in Hlook. injection Hlook as <-. reflexivity.
Defined.

End MergeScenarios.

(* ===================================================================== *)
(** ** Running a query again *)
(* ===================================================================== *)
Section RerunFacts.
Import ast dora.
Context `{Fmt}.

(** Two clients with the same input and the same tokens. *)
Local Abbreviation alike c c2 :=
  (input c2 = input c /\ parsedQuery c2 = parsedQuery c).

Lemma applyWrites_none c : applyWrites (None, None) c = c.
Proof. destruct c. reflexivity. Qed.

Lemma applyWrites_then w1 w2 c :
  applyWrites w2 (applyWrites w1 c) = applyWrites (thenWrites w1 w2) c.
Proof. destruct w1 as [[v1|] [r1|]], w2 as [[v2|] [r2|]]; reflexivity. Qed.

Lemma applyWrites_twice w c :
  applyWrites w (applyWrites w c) = applyWrites w c.
Proof. destruct w as [[v|] [r|]]; reflexivity. Qed.

Lemma setResultFromValue_writes v c c1 :
  setResultFromValue v c = Return c1 ->
  exists w, c1 = applyWrites w c /\
            forall c2, alike c c2 ->
                       setResultFromValue v c2 = Return (applyWrites w c2).
Proof.
  unfold setResultFromValue. destruct v as [o|a|l|p|i]; cbn.
  - destruct (slice _ _ _) as [bs|] eqn:Hs; cbn; [|discriminate].
    intros [= <-]. exists (Some (VObject o), Some (string_of_list_byte bs)).
    split; [reflexivity|]. intros c2 [Hin _]. rewrite Hin, Hs. reflexivity.
  - destruct (Array_String a) as [str|]; cbn; [|discriminate].
    intros [= <-]. exists (Some (VArray a), Some str).
    split; [reflexivity|]. intros c2 _. reflexivity.
  - intros [= <-]. exists (Some (VLiteral l), Some (Literal_String l)).
    split; [reflexivity|]. intros c2 _. reflexivity.
  - intros [= <-]. exists (Some (VProperty p), None).
    split; [reflexivity|]. intros c2 _. reflexivity.
  - intros [= <-]. exists (Some (VIdentifier i), None).
    split; [reflexivity|]. intros c2 _. reflexivity.
Qed.

Lemma setFinalValue_writes t i o a c c1 :
  setFinalValue t i o a c = Return c1 ->
  exists w, c1 = applyWrites w c /\
            forall c2, alike c c2 ->
                       setFinalValue t i o a c2 = Return (applyWrites w c2).
Proof.
  unfold setFinalValue. destruct (Type_eqb t ObjectType).
  - destruct (index_at (parsedQuery c) i) as [qt|] eqn:Hqt; cbn [bind];
      [|discriminate].
    rewrite setFinalValue_range_first.
    destruct (firstWithKey _ _) as [p|] eqn:Hp.
    + intros Hs. apply setResultFromValue_writes in Hs as (w & -> & Hw).
      exists w. split; [reflexivity|]. intros c2 Hc2.
      destruct Hc2 as [Hin Hpq]. rewrite Hpq, Hqt. cbn [bind].
      rewrite setFinalValue_range_first, Hp. apply Hw. auto.
    + intros [= <-]. exists (None, None).
      split; [symmetry; apply applyWrites_none|]. intros c2 [Hin Hpq].
      rewrite Hpq, Hqt. cbn [bind].
      rewrite setFinalValue_range_first, Hp, applyWrites_none. reflexivity.
  - destruct (index_at (parsedQuery c) i) as [qt|] eqn:Hqt; cbn [bind];
      [|discriminate].
    destruct (index_at (Array_Children a) _) as [v|] eqn:Hv; cbn [bind];
      [|discriminate].
    intros Hs. apply setResultFromValue_writes in Hs as (w & -> & Hw).
    exists w. split; [reflexivity|]. intros c2 Hc2.
    destruct Hc2 as [Hin Hpq]. rewrite Hpq, Hqt. cbn [bind].
    rewrite Hv. cbn [bind]. apply Hw. auto.
Qed.

Lemma alike_applyWrites w c c2 :
  alike c c2 -> alike (applyWrites w c) (applyWrites w c2).
Proof. intros [Hin Hpq]. cbn. auto. Qed.

Lemma iteration_writes len i l c s :
  iteration len i l c = Return s ->
  exists w, clientOf s = applyWrites w c /\
            forall c2, alike c c2 ->
                       iteration len i l c2 =
                       Return (withClient s (applyWrites w c2)).
Proof.
  unfold iteration.
  destruct (if i =? len - 1 then _ else _) as [c1|] eqn:Hfin;
    cbn [bind]; [|discriminate].
  assert (Hw1 : exists w1, c1 = applyWrites w1 c /\
                  forall c2, alike c c2 ->
                    (if i =? len - 1
                     then setFinalValue (currentType l) i (obj l) (arr l) c2
                     else Return c2) = Return (applyWrites w1 c2)).
  { destruct (i =? len - 1).
    - apply setFinalValue_writes in Hfin. exact Hfin.
    - injection Hfin as <-. exists (None, None).
      split; [symmetry; apply applyWrites_none|].
      intros c2 _. rewrite applyWrites_none. reflexivity. }
  destruct Hw1 as (w1 & -> & Hw1).
  change (parsedQuery (applyWrites w1 c)) with (parsedQuery c).
  destruct (index_at (parsedQuery c) i) as [qt|] eqn:Hqt; cbn [bind];
    [|discriminate].
  assert (Hc2 : forall c2, alike c c2 ->
             index_at (parsedQuery (applyWrites w1 c2)) i = Return qt /\
             (if i =? len - 1
              then setFinalValue (currentType l) i (obj l) (arr l) c2
              else Return c2) = Return (applyWrites w1 c2)).
  { intros c2 Hc2. split; [|apply Hw1; exact Hc2].
    change (parsedQuery (applyWrites w1 c2)) with (parsedQuery c2).
    destruct Hc2 as [_ Hpq]. rewrite Hpq. exact Hqt. }
  destruct (accessType qt) eqn:Hacc.
  - destruct (negb (Type_eqb (currentType l) ObjectType)) eqn:Hk.
    + intros [= <-]. exists w1. split; [reflexivity|]. intros c2 Ha.
      destruct (Hc2 c2 Ha) as [Hq ->]. cbn [bind].
      rewrite Hq. cbn [bind]. rewrite Hacc. reflexivity.
    + destruct (rangeChildren _ _ _ _) as [found l'] eqn:Hrc.
      destruct (negb found) eqn:Hf; intros [= <-]; exists w1;
        (split; [reflexivity|]); intros c2 Ha;
        destruct (Hc2 c2 Ha) as [Hq ->]; cbn [bind];
        rewrite Hq; cbn [bind]; rewrite Hacc, Hrc, Hf; reflexivity.
  - destruct (negb (Type_eqb (currentType l) ArrayType)) eqn:Hk.
    + intros [= <-]. exists w1. split; [reflexivity|]. intros c2 Ha.
      destruct (Hc2 c2 Ha) as [Hq ->]. cbn [bind].
      rewrite Hq. cbn [bind]. rewrite Hacc. reflexivity.
    + destruct (index_at (Array_Children (arr l)) (index qt)) as [val|] eqn:Hv;
        cbn [bind]; [|discriminate].
      destruct val as [o|a|lit|p|id];
        try (intros [= <-]; exists w1; (split; [reflexivity|]);
             intros c2 Ha; destruct (Hc2 c2 Ha) as [Hq ->];
             cbn [bind]; rewrite Hq; cbn [bind];
             rewrite Hacc, Hv; reflexivity).
      destruct (i =? len - 1) eqn:Hlast.
      * cbn. intros [= <-].
        exists (thenWrites w1
                  (Some (VLiteral lit), Some (Literal_String lit))).
        split; [cbn; rewrite <- applyWrites_then; reflexivity|].
        intros c2 Ha. destruct (Hc2 c2 Ha) as [Hq ->].
        cbn [bind]. rewrite Hq. cbn [bind]. rewrite Hacc, Hv.
        cbn. rewrite <- applyWrites_then. reflexivity.
      * intros [= <-]. exists w1. split; [reflexivity|]. intros c2 Ha.
        destruct (Hc2 c2 Ha) as [Hq ->]. cbn [bind].
        rewrite Hq. cbn [bind]. rewrite Hacc, Hv. reflexivity.
Qed.

Lemma forLoop_writes n : forall len i l c r c',
  forLoop n len i l c = Return (r, c') ->
  exists w, c' = applyWrites w c /\
            forall c2, alike c c2 ->
                       forLoop n len i l c2 = Return (r, applyWrites w c2).
Proof.
  induction n as [|n IH]; cbn [forLoop]; intros len i l c r c'.
  - intros [= <- <-]. exists (None, None).
    split; [symmetry; apply applyWrites_none|].
    intros c2 _. rewrite applyWrites_none. reflexivity.
  - destruct (iteration len i l c) as [s|] eqn:Hit; cbn [bind];
      [|discriminate].
    apply iteration_writes in Hit as (w & Hw & Hit2).
    destruct s as [l1 c1|err c1]; cbn in Hw; subst c1.
    + intros Hr. apply IH in Hr as (w' & -> & Hr2).
      exists (thenWrites w w'). split; [apply applyWrites_then|].
      intros c2 Hc2. rewrite (Hit2 c2 Hc2). cbn [bind withClient].
      rewrite (Hr2 (applyWrites w c2) (alike_applyWrites _ _ _ Hc2)).
      rewrite applyWrites_then. reflexivity.
    + intros [= <- <-]. exists w. split; [reflexivity|].
      intros c2 Hc2. rewrite (Hit2 c2 Hc2). reflexivity.
Qed.

(** X19.  Running a query again on the client the first run has left
    gives the same outcome and leaves that client as it is: what the
    first run has stored in [result] and [resultValue] neither changes
    the traversal nor is changed by the second run. *)
Theorem executeQuery_again :
  forall (c c' : Client) (r : option error),
    executeQuery c = Return (r, c') ->
    executeQuery c' = Return (r, c').
Proof.
  intros c c' r. unfold executeQuery.
  destruct (RootValue (tree c)) as [rootVal|] eqn:Hroot; cbn [deref bind];
    [|discriminate].
  intros Hr. apply forLoop_writes in Hr as (w & -> & Hr2).
  change (tree (applyWrites w c)) with (tree c).
  change (parsedQuery (applyWrites w c)) with (parsedQuery c).
  rewrite Hroot. cbn [deref bind].
  rewrite (Hr2 (applyWrites w c)) by (cbn; auto).
  rewrite applyWrites_twice. reflexivity.
Qed.

End RerunFacts.

Section RerunScenario.
Import ast dora Examples.

Lemma executeQuery_again_witness :
  @executeQuery fmtNotCalled
    (set_result ("[" +:+ q "some" +:+ "," +:+ q "values" +:+ "]")
       (set_resultValue (VArray someArray)
          (readme [objectAccess "someArray"]))) =
  Return (None,
          set_result ("[" +:+ q "some" +:+ "," +:+ q "values" +:+ "]")
            (set_resultValue (VArray someArray)
               (readme [objectAccess "someArray"]))).
Proof.
  apply (@executeQuery_again fmtNotCalled
           (readme [objectAccess "someArray"]) _ None).
  vm_compute. reflexivity.
Defined.

End RerunScenario.
